(** * mydb: one master handle, a set of read replicas

    A shallow embedding of [mydb.go] (package [mydb]): the router [DB] that
    sends reads to the replicas, round robin and with failover, and every
    other operation to the master.

    Conventions of the embedding.
    - Go's [int] is taken at its 64-bit size (amd64, arm64): a two's
      complement integer, here a [Z] kept in range by [wrapInt], which is
      written at every [++] and [+].  (On a 32-bit target [int] has 32
      bits; that size is not modelled.)
    - A [*sql.DB] handle is outside the package.  It is a record of what each
      of its methods answers ([SqlDB]); handles are non-nil and answer the same
      way during one call of the router.
    - Every method call on a handle is appended to a log of [event]s, so that
      "which handle was asked, and in which order" is a statement about data.
    - A call of the router either returns a value, panics (Go's run-time
      panic: index out of range, division by zero) or does not return
      ([Stuck]: a loop that ran out of fuel, a receive that blocks for ever).
    - [context.Context] and the variadic query arguments are passed through
      to the handle unchanged and are left out. *)

From Stdlib Require Import ZArith List String Ascii Bool Lia Permutation.
From Stdlib Require Import DecimalString.
Import ListNotations.

Local Open Scope string_scope.
Local Open Scope list_scope.
Local Open Scope Z_scope.

Infix "+++" := String.append (at level 60, right associativity).

(** ** Go's [int] *)

Definition intBits : Z := 64.
Definition maxInt : Z := 2 ^ (intBits - 1) - 1.
Definition minInt : Z := - 2 ^ (intBits - 1).

(** Two's complement wrap-around of a mathematical integer into [int]. *)
Definition wrapInt (z : Z) : Z :=
  (z + 2 ^ (intBits - 1)) mod 2 ^ intBits - 2 ^ (intBits - 1).

(** Go's [%] truncates towards zero: the sign of the result is the sign of
    the dividend.  This is [Z.rem]. *)
Definition goRem (a b : Z) : Z := Z.rem a b.

(** [strconv]-style decimal rendering, what [%d] prints. *)
Definition itoa (z : Z) : string := NilZero.string_of_int (Z.to_int z).

(** The line feed of ["\n"]. *)
Definition nl : string := String (ascii_of_nat 10) EmptyString.

(** ** The constants of the package *)

Definition noReadReplicaError : string := "Provide at least one read replica".
Definition masterPingFailError (cause : string) : string :=
  "master's db ping fail: " +++ cause.
Definition replicaPingFailError (ordinal : Z) (cause : string) : string :=
  "replica db " +++ itoa ordinal +++ " ping fail: " +++ cause.
Definition pingChannelCloseError : string := "Ping Channel is closed".
Definition noReplicaAvailableError : string := "No replica is alive for reading data".

(** ** Handles of [database/sql] *)

(** Go's [(value, error)] pair of a fallible call: exactly one side is set. *)
Inductive Result (A : Type) : Type :=
| Success (a : A)
| Failure (err : string).
Arguments Success {A} a.
Arguments Failure {A} err.

Definition isSuccess {A} (r : Result A) : bool :=
  match r with Success _ => true | Failure _ => false end.

(** An [error] that may be [nil]. *)
Definition error : Type := option string.
Definition isNil (e : error) : bool :=
  match e with None => true | Some _ => false end.

Inductive Rows : Type := mkRows (columns : list string).
Inductive Row : Type := mkRow (pending : Result (list string)).
Inductive Stmt : Type := mkStmt (owner : string) (text : string).
Inductive Tx : Type := mkTx (id : Z).
Inductive ExecResult : Type := mkExecResult (lastInsertId rowsAffected : Z).

Record SqlDB : Type := mkSqlDB {
  h_ping : error;
  h_query : string -> Result Rows;
  h_queryRow : string -> Row;
  h_exec : string -> Result ExecResult;
  h_prepare : string -> Result Stmt;
  h_beginTx : Result Tx;
  h_close : error
}.

(** ** The log of handle calls *)

Inductive target : Type :=
| Master
| Replica (index : Z).

Inductive method : Type :=
| MPing
| MQuery (query : string)
| MQueryRow (query : string)
| MExec (query : string)
| MPrepare (query : string)
| MBeginTx
| MClose
| MSetConnMaxLifetime (d : Z)
| MSetMaxIdleConns (n : Z)
| MSetMaxOpenConns (n : Z).

Definition event : Type := (target * method)%type.

(** ** The router *)

(** [type DB struct].  The mutex only serialises the counter update; calls
    are sequential here. *)
Record DB : Type := mkDB {
  count : Z;
  master : SqlDB;
  readreplicas : list SqlDB
}.

Definition len (db : DB) : Z := Z.of_nat (List.length (readreplicas db)).

Definition setCount (db : DB) (c : Z) : DB :=
  mkDB c (master db) (readreplicas db).

(** [func New(master, readreplicas...)]: the replica count is checked, nothing
    else; the counter of the new router is Go's zero value. *)
Definition New (master : SqlDB) (readreplicas : list SqlDB) : Result DB :=
  if (Z.of_nat (List.length readreplicas) =? 0) then Failure noReadReplicaError
  else Success (mkDB 0 master readreplicas).

(** ** Outcomes and the state monad of a call *)

Inductive res (A : Type) : Type :=
| Val (a : A)
| Panic (msg : string)
| Stuck.
Arguments Val {A} a.
Arguments Panic {A} msg.
Arguments Stuck {A}.

Definition state : Type := (DB * list event)%type.
Definition M (A : Type) : Type := state -> res A * state.

Definition ret {A} (a : A) : M A := fun s => (Val a, s).
Definition bind {A B} (m : M A) (f : A -> M B) : M B :=
  fun s =>
    match m s with
    | (Val a, s') => f a s'
    | (Panic msg, s') => (Panic msg, s')
    | (Stuck, s') => (Stuck, s')
    end.
Definition panic {A} (msg : string) : M A := fun s => (Panic msg, s).
Definition stuck {A} : M A := fun s => (Stuck, s).
Definition getDB : M DB := fun s => (Val (fst s), s).
Definition putCount (c : Z) : M unit := fun s => (Val tt, (setCount (fst s) c, snd s)).
Definition call (t : target) (m : method) : M unit :=
  fun s => (Val tt, (fst s, snd s ++ [(t, m)])).

Notation "x <- m ;; k" := (bind m (fun x => k))
  (at level 61, m at next level, right associativity).
Notation "m ;;; k" := (bind m (fun _ => k))
  (at level 61, right associativity).

(** [db.readreplicas[i]]: Go checks the index and panics outside the slice. *)
Definition replicaAt (i : Z) : M SqlDB :=
  db <- getDB ;;
  if (0 <=? i) && (i <? len db) then
    match nth_error (readreplicas db) (Z.to_nat i) with
    | Some h => ret h
    | None => panic "index out of range"
    end
  else panic "index out of range".

(** [func (db *DB) readReplicaNumberRoundRobin() int] *)
Definition readReplicaNumberRoundRobin : M Z :=
  db <- getDB ;;
  let c := wrapInt (count db + 1) in
  putCount c ;;;
  if len db =? 0 then panic "integer divide by zero"
  else ret (goRem c (len db)).

(** One method call on the replica [db.readreplicas[i]]: the index check,
    then the call itself, which is logged. *)
Definition onReplica {A} (i : Z) (m : method) (answer : SqlDB -> A) : M A :=
  h <- replicaAt i ;;
  call (Replica i) m ;;;
  ret (answer h).

(** One method call on [db.master]. *)
Definition onMaster {A} (m : method) (answer : SqlDB -> A) : M A :=
  db <- getDB ;;
  call Master m ;;;
  ret (answer (master db)).

(** *** Reads *)

(** The [for i := replicaIndex + 1; ; i++] loop of [QueryContext].  The loop
    has no bound of its own: [fuel] counts the iterations that are left. *)
Fixpoint QueryContext_loop (fuel : nat) (query : string) (replicaIndex i : Z)
  : M (Result Rows) :=
  match fuel with
  | O => stuck
  | S fuel' =>
      db <- getDB ;;
      let newIndex := goRem i (len db) in
      if newIndex =? replicaIndex then ret (Failure noReplicaAvailableError)
      else
        r <- onReplica newIndex (MQuery query) (fun h => h_query h query) ;;
        match r with
        | Success rows => ret (Success rows)
        | Failure _ => QueryContext_loop fuel' query replicaIndex (wrapInt (i + 1))
        end
  end.

(** [func (db *DB) QueryContext(ctx, query, args...)] *)
Definition QueryContext (query : string) : M (Result Rows) :=
  replicaIndex <- readReplicaNumberRoundRobin ;;
  r <- onReplica replicaIndex (MQuery query) (fun h => h_query h query) ;;
  match r with
  | Success rows => ret (Success rows)
  | Failure _ =>
      db <- getDB ;;
      QueryContext_loop (List.length (readreplicas db)) query replicaIndex
        (wrapInt (replicaIndex + 1))
  end.

Definition Query (query : string) : M (Result Rows) := QueryContext query.

(** [func (db *DB) QueryRowContext(ctx, query, args...) *sql.Row] *)
Definition QueryRowContext (query : string) : M Row :=
  replicaIndex <- readReplicaNumberRoundRobin ;;
  onReplica replicaIndex (MQueryRow query) (fun h => h_queryRow h query).

Definition QueryRow (query : string) : M Row := QueryRowContext query.

(** The loop of [prepare]. *)
Fixpoint prepare_loop (fuel : nat) (query : string) (replicaIndex i : Z)
  : M (Result Stmt) :=
  match fuel with
  | O => stuck
  | S fuel' =>
      db <- getDB ;;
      let newIndex := goRem i (len db) in
      if newIndex =? replicaIndex then ret (Failure noReplicaAvailableError)
      else
        r <- onReplica newIndex (MPrepare query) (fun h => h_prepare h query) ;;
        match r with
        | Success stmt => ret (Success stmt)
        | Failure _ => prepare_loop fuel' query replicaIndex (wrapInt (i + 1))
        end
  end.

(** [func (db *DB) prepare(ctx, query)] *)
Definition prepare (query : string) : M (Result Stmt) :=
  replicaIndex <- readReplicaNumberRoundRobin ;;
  r <- onReplica replicaIndex (MPrepare query) (fun h => h_prepare h query) ;;
  match r with
  | Success stmt => ret (Success stmt)
  | Failure _ =>
      db <- getDB ;;
      prepare_loop (List.length (readreplicas db)) query replicaIndex
        (wrapInt (replicaIndex + 1))
  end.

(** *** Writes, transactions, closing, pool tuning *)

(** [func (db *DB) BeginTx(ctx, opts)] *)
Definition BeginTx : M (Result Tx) := onMaster MBeginTx h_beginTx.
Definition Begin : M (Result Tx) := BeginTx.

(** [func (db *DB) ExecContext(ctx, query, args...)] *)
Definition ExecContext (query : string) : M (Result ExecResult) :=
  onMaster (MExec query) (fun h => h_exec h query).
Definition Exec (query : string) : M (Result ExecResult) := ExecContext query.

(** [for i := range db.readreplicas { err = db.readreplicas[i].Close() }] *)
Fixpoint Close_loop (rs : list SqlDB) (i : Z) (err : error) : M error :=
  match rs with
  | [] => ret err
  | h :: rs' =>
      call (Replica i) MClose ;;;
      Close_loop rs' (i + 1) (h_close h)
  end.

(** [func (db *DB) Close() error] *)
Definition Close : M error :=
  err <- onMaster MClose h_close ;;
  db <- getDB ;;
  Close_loop (readreplicas db) 0 err.

(** The [range] loop of the three pool-tuning methods. *)
Fixpoint tune_loop (rs : list SqlDB) (i : Z) (m : method) : M unit :=
  match rs with
  | [] => ret tt
  | _ :: rs' => call (Replica i) m ;;; tune_loop rs' (i + 1) m
  end.

Definition tune (m : method) : M unit :=
  call Master m ;;;
  db <- getDB ;;
  tune_loop (readreplicas db) 0 m.

Definition SetConnMaxLifetime (d : Z) : M unit := tune (MSetConnMaxLifetime d).
Definition SetMaxIdleConns (n : Z) : M unit := tune (MSetMaxIdleConns n).
Definition SetMaxOpenConns (n : Z) : M unit := tune (MSetMaxOpenConns n).

(** *** Ping *)

(** [type pingChanResponse struct { err error }] *)
Record pingChanResponse : Type := mkResp { err : error }.

(** [func (db *DB) ping(ctx, i, pingChan)]: what goroutine [i] sends. *)
Definition ping (i : Z) : M pingChanResponse :=
  e <- onReplica i MPing
         (fun h => match h_ping h with
                   | Some cause => Some (replicaPingFailError (i + 1) cause)
                   | None => None
                   end) ;;
  ret (mkResp e).

(** The goroutines started by [PingContext] run in an order the scheduler
    picks.  [order] lists the replica indices in the order in which their
    goroutines send; the channel has room for every response, so no send
    blocks, and being a FIFO it hands the responses over in that order. *)
Fixpoint fanOut (order : list Z) : M (list pingChanResponse) :=
  match order with
  | [] => ret []
  | i :: order' =>
      r <- ping i ;;
      rest <- fanOut order' ;;
      ret (r :: rest)
  end.

(** [chanResp, ok := <-pingChan]: a value if one is buffered; the zero value
    and [false] on a closed, drained channel; otherwise the receive blocks. *)
Definition recv (buffer : list pingChanResponse) (closed : bool)
  : option (pingChanResponse * bool * list pingChanResponse) :=
  match buffer with
  | r :: buffer' => Some (r, true, buffer')
  | [] => if closed then Some (mkResp None, false, []) else None
  end.

(** The collecting loop [for i := 0; i < len(db.readreplicas); i++] and the
    lines after it.  [close(pingChan)] is deferred, so the channel is open
    during the whole loop. *)
Fixpoint PingContext_collect (n : nat) (pingChan : list pingChanResponse)
    (errString : list string) : M error :=
  match n with
  | O =>
      if (0 <? Z.of_nat (List.length errString))
      then ret (Some (String.concat nl errString))
      else ret None
  | S n' =>
      match recv pingChan false with
      | None => stuck
      | Some (chanResp, ok, pingChan') =>
          if negb ok then ret (Some pingChannelCloseError)
          else
            match err chanResp with
            | Some e => PingContext_collect n' pingChan' (errString ++ [e])
            | None => PingContext_collect n' pingChan' errString
            end
      end
  end.

(** [func (db *DB) PingContext(ctx) error], under the schedule [order]. *)
Definition PingContext (order : list Z) : M error :=
  e <- onMaster MPing h_ping ;;
  let errString :=
    match e with
    | Some cause => [masterPingFailError cause]
    | None => []
    end in
  pingChan <- fanOut order ;;
  db <- getDB ;;
  PingContext_collect (List.length (readreplicas db)) pingChan errString.

Definition Ping (order : list Z) : M error := PingContext order.

(** *** Prepare *)

(** Go's [strings] package is outside the repository.  [TrimSpace] and
    [ToLower] work on bytes as long as the text is ASCII and hand a text with
    a byte of [utf8.RuneSelf] or more to their Unicode-aware slow paths; those
    three slow paths are the fields of [Unicode], left abstract. *)
Record Unicode : Type := mkUnicode {
  TrimFunc_IsSpace : string -> string;
  TrimRightFunc_IsSpace : string -> string;
  Map_ToLower : string -> string
}.

Definition byte (c : ascii) : Z := Z.of_N (N_of_ascii c).
Definition RuneSelf : Z := 128.

(** [asciiSpace]: tab, line feed, vertical tab, form feed, carriage return,
    space. *)
Definition asciiSpace (c : ascii) : bool :=
  let b := byte c in
  ((9 <=? b) && (b <=? 13)) || (b =? 32).

(** The second loop of [TrimSpace], on the reversed text: [stop] moves left
    over ASCII spaces. *)
Fixpoint TrimSpace_stop (U : Unicode) (reversed : list ascii) : string :=
  match reversed with
  | [] => EmptyString
  | c :: reversed' =>
      if RuneSelf <=? byte c
      then TrimRightFunc_IsSpace U (string_of_list_ascii (rev reversed))
      else if asciiSpace c then TrimSpace_stop U reversed'
      else string_of_list_ascii (rev reversed)
  end.

(** The first loop of [TrimSpace]: [start] moves right over ASCII spaces. *)
Fixpoint TrimSpace_start (U : Unicode) (s : list ascii) : string :=
  match s with
  | [] => EmptyString
  | c :: s' =>
      if RuneSelf <=? byte c
      then TrimFunc_IsSpace U (string_of_list_ascii s)
      else if asciiSpace c then TrimSpace_start U s'
      else TrimSpace_stop U (rev s)
  end.

Definition TrimSpace (U : Unicode) (s : string) : string :=
  TrimSpace_start U (list_ascii_of_string s).

Definition isASCII (s : string) : bool :=
  forallb (fun c => byte c <? RuneSelf) (list_ascii_of_string s).

Definition lowerByte (c : ascii) : ascii :=
  let b := byte c in
  if (65 <=? b) && (b <=? 90) then ascii_of_N (Z.to_N (b + 32)) else c.

Definition ToLower (U : Unicode) (s : string) : string :=
  if isASCII s
  then string_of_list_ascii (map lowerByte (list_ascii_of_string s))
  else Map_ToLower U s.

Definition HasPrefix (s prefix : string) : bool := String.prefix prefix s.

(** [func (db *DB) PrepareContext(ctx, query)] *)
Definition PrepareContext (U : Unicode) (query : string) : M (Result Stmt) :=
  let qSmall := ToLower U (TrimSpace U query) in
  if negb (HasPrefix qSmall "select")
  then onMaster (MPrepare query) (fun h => h_prepare h query)
  else prepare query.

Definition Prepare (U : Unicode) (query : string) : M (Result Stmt) :=
  PrepareContext U query.

(** ** Vocabulary of the statements *)

(** The replica indices in the order of a failover walk that starts at [s]:
    [s], [(s+1) mod N], ..., [(s+N-1) mod N]. *)
Definition rotation (s N : Z) : list Z :=
  map (fun k => (s + Z.of_nat k) mod N) (seq 0 (Z.to_nat N)).

(** What the replica at index [i] answers to an operation; the default is
    never reached for an index of the slice. *)
Definition answerAt {A} (db : DB) (op : SqlDB -> Result A) (i : Z) : Result A :=
  match nth_error (readreplicas db) (Z.to_nat i) with
  | Some h => op h
  | None => Failure "index out of range"
  end.

(** The walk as the specification words it: try the indices in order, stop
    at the first success; [NoReplicaAvailable] when the list is used up.
    Returns the indices tried and the result. *)
Fixpoint tryInOrder {A} (attempt : Z -> Result A) (indices : list Z)
  : list Z * Result A :=
  match indices with
  | [] => ([], Failure noReplicaAvailableError)
  | i :: indices' =>
      match attempt i with
      | Success a => ([i], Success a)
      | Failure _ =>
          let (tried, r) := tryInOrder attempt indices' in (i :: tried, r)
      end
  end.

(** The log entries of one walk. *)
Definition attempts (m : method) (tried : list Z) : list event :=
  map (fun i => (Replica i, m)) tried.

(** [tried] and [r] are what a walk from [s] over [N] replicas may produce:
    [tried] is an initial segment of the rotation, without repetition and of
    at most [N] indices; either its last index is the first one that
    succeeds and [r] is that success, or it is the whole rotation, every
    attempt failed and [r] is the [NoReplicaAvailable] error. *)
Definition walkOutcome {A} (attempt : Z -> Result A) (s N : Z)
    (tried : list Z) (r : Result A) : Prop :=
  (exists rest, rotation s N = tried ++ rest) /\
  NoDup tried /\
  Z.of_nat (List.length tried) <= N /\
  ((exists before j a,
       tried = before ++ [j] /\
       Forall (fun i => isSuccess (attempt i) = false) before /\
       attempt j = Success a /\ r = Success a)
   \/
   (tried = rotation s N /\
    Forall (fun i => isSuccess (attempt i) = false) tried /\
    r = Failure noReplicaAvailableError)).

(** The three read operations, as calls. *)
Inductive readCall : Type :=
| RQuery (query : string)
| RQueryRow (query : string)
| RPrepare (query : string).

Definition methodOf (c : readCall) : method :=
  match c with
  | RQuery q => MQuery q
  | RQueryRow q => MQueryRow q
  | RPrepare q => MPrepare q
  end.

(** Runs one read call and forgets what it returns. *)
Definition runRead (c : readCall) (st : state) : state :=
  match c with
  | RQuery q => snd (QueryContext q st)
  | RQueryRow q => snd (QueryRowContext q st)
  | RPrepare q => snd (prepare q st)
  end.

Definition runReads (cs : list readCall) (st : state) : state :=
  fold_left (fun st c => runRead c st) cs st.

(** The index the selector hands to the next read call. *)
Definition nextIndex (st : state) : res Z := fst (readReplicaNumberRoundRobin st).

(** A handle that answers every read. *)
Definition healthy (h : SqlDB) : Prop :=
  forall q, isSuccess (h_query h q) = true /\ isSuccess (h_prepare h q) = true.

(** ** Handles and routers of the examples *)

(** An open handle in the manner of the mocks of [mydb_test.go]. *)
Definition openDB (name : string) : SqlDB :=
  mkSqlDB None
    (fun _ => Success (mkRows [name]))
    (fun _ => mkRow (Success [name]))
    (fun _ => Success (mkExecResult 123 1))
    (fun q => Success (mkStmt name q))
    (Success (mkTx 1))
    None.

Definition closedError : string := "sql: database is closed".

(** A handle after its [Close]: every call fails, and a second [Close]
    returns nil. *)
Definition closedDB : SqlDB :=
  mkSqlDB (Some closedError)
    (fun _ => Failure closedError)
    (fun _ => mkRow (Failure closedError))
    (fun _ => Failure closedError)
    (fun _ => Failure closedError)
    (Failure closedError)
    None.

(** A handle whose [Close] reports an error. *)
Definition badCloseDB : SqlDB :=
  mkSqlDB None
    (fun _ => Success (mkRows ["m"]))
    (fun _ => mkRow (Success ["m"]))
    (fun _ => Success (mkExecResult 123 1))
    (fun q => Success (mkStmt "m" q))
    (Success (mkTx 1))
    (Some "close: connection reset").

(** ASCII texts never reach the slow paths; the examples use this filler. *)
Definition asciiOnly : Unicode := mkUnicode (fun s => s) (fun s => s) (fun s => s).

Definition threeReplicas : DB :=
  mkDB 0 (openDB "master") [openDB "r1"; openDB "r2"; openDB "r3"].

(** The loop that [QueryContext] and [prepare] both spell out, with the
    handle method as a parameter.  It is used to reason about the two copies
    at once; [QueryContext_loop_walk] and [prepare_loop_walk] relate it to
    them. *)
Fixpoint walk_loop {A} (fuel : nat) (m : method) (op : SqlDB -> Result A)
    (replicaIndex i : Z) : M (Result A) :=
  match fuel with
  | O => stuck
  | S fuel' =>
      db <- getDB ;;
      let newIndex := goRem i (len db) in
      if newIndex =? replicaIndex then ret (Failure noReplicaAvailableError)
      else
        r <- onReplica newIndex m op ;;
        match r with
        | Success a => ret (Success a)
        | Failure _ => walk_loop fuel' m op replicaIndex (wrapInt (i + 1))
        end
  end.

(** The body shared by [QueryContext] and [prepare]: select, try the selected
    replica, walk on failure. *)
Definition walk {A} (m : method) (op : SqlDB -> Result A) : M (Result A) :=
  replicaIndex <- readReplicaNumberRoundRobin ;;
  r <- onReplica replicaIndex m op ;;
  match r with
  | Success a => ret (Success a)
  | Failure _ =>
      db <- getDB ;;
      walk_loop (List.length (readreplicas db)) m op replicaIndex
        (wrapInt (replicaIndex + 1))
  end.

(** The indices the loop still has to visit when it is [k] steps away from
    its start. *)
Definition rotationFrom (s N : Z) (k d : nat) : list Z :=
  map (fun j => (s + Z.of_nat j) mod N) (seq k d).

(** The largest replica set for which [replicaIndex + len] still is an
    [int].  A slice of 8-byte pointers that fits a 64-bit address space is
    far shorter. *)
Definition maxReplicas : Z := 2 ^ (intBits - 2).

(** The state after [k] calls of the selector alone. *)
Definition afterSelections (k : N) (st : state) : state :=
  N.iter k (fun st => snd (readReplicaNumberRoundRobin st)) st.

(** Three replicas, the first two closed, the counter at 2: the selector
    picks index 0, and the walk goes 0, 1, 2. *)
Definition twoDown : DB :=
  mkDB 2 (openDB "master") [closedDB; closedDB; openDB "r3"].

(** Master and first replica closed, second replica open, as in
    [TestDB_Ping]; the second goroutine happens to answer first. *)
Definition pingScenario : DB := mkDB 0 closedDB [closedDB; openDB "r2"].

(** A master whose [Close] fails, in front of one replica whose [Close]
    succeeds. *)
Definition masterCloseFails : DB := mkDB 0 badCloseDB [openDB "r1"].

(** A first replica whose [Close] fails, a second whose [Close] succeeds. *)
Definition replicaCloseFails : DB :=
  mkDB 0 (openDB "master") [badCloseDB; openDB "r2"].

(** What [db.count++] makes of the router. *)
Definition increment (db : DB) : DB := setCount db (wrapInt (count db + 1)).

(** A computation that leaves the router, and so its counter, as it found
    it, whatever its outcome. *)
Definition preserves {A} (m : M A) : Prop :=
  forall st, fst (snd (m st)) = fst st.

(** The indices of the replica slice, in slice order. *)
Definition indices (db : DB) : list Z :=
  map Z.of_nat (seq 0 (List.length (readreplicas db))).

(** A schedule of the ping goroutines: every replica index once. *)
Definition schedule (db : DB) (order : list Z) : Prop :=
  Permutation order (indices db).

(** The failure line of the master, if its ping fails. *)
Definition masterLine (db : DB) : list string :=
  match h_ping (master db) with
  | Some cause => [masterPingFailError cause]
  | None => []
  end.

(** The failure line of the replica at index [i] of [rs], if its ping
    fails; the ordinal in the line is [i + 1]. *)
Definition replicaLine (rs : list SqlDB) (i : Z) : list string :=
  match nth_error rs (Z.to_nat i) with
  | Some h =>
      match h_ping h with
      | Some cause => [replicaPingFailError (i + 1) cause]
      | None => []
      end
  | None => []
  end.

(** Master line first, then the replica lines in the order of collection. *)
Definition failureLines (db : DB) (order : list Z) : list string :=
  masterLine db ++ flat_map (replicaLine (readreplicas db)) order.

Definition pingFails (h : SqlDB) : bool := negb (isNil (h_ping h)).

(** How many of the master and the replicas fail their ping. *)
Definition failedTargets (db : DB) : nat :=
  ((if pingFails (master db) then 1 else 0) +
   List.length (filter pingFails (readreplicas db)))%nat.

(** [errors.New(strings.Join(errString, "\n"))] when there is a line, nil
    otherwise. *)
Definition joined (lines : list string) : error :=
  match lines with
  | [] => None
  | _ :: _ => Some (String.concat nl lines)
  end.

(** The log of [Close] and of the pool-tuning methods: the master, then the
    replicas in slice order. *)
Definition sweep (db : DB) (m : method) : list event :=
  (Master, m) :: map (fun i => (Replica i, m)) (indices db).

(** ** Sequences of calls *)

(** The calls a user can make on the router, and one event of the world
    around it: the handles change what they answer (a handle is closed, a
    replica comes back).  The router keeps its handles; only their answers
    change, so the new list is taken when it is as long as the old one. *)
Inductive operation : Type :=
| OQuery (query : string)
| OQueryRow (query : string)
| OPrepare (query : string)
| OExec (query : string)
| OBeginTx
| OPing (order : list Z)
| OClose
| OSetConnMaxLifetime (d : Z)
| OSetMaxIdleConns (n : Z)
| OSetMaxOpenConns (n : Z)
| OHandlesChange (master : SqlDB) (readreplicas : list SqlDB).

Definition changeHandles (m : SqlDB) (rs : list SqlDB) (db : DB) : DB :=
  if Nat.eqb (List.length rs) (List.length (readreplicas db))
  then mkDB (count db) m rs
  else db.

(** Runs one call and forgets what it returns. *)
Definition runOp (U : Unicode) (o : operation) (st : state) : state :=
  match o with
  | OQuery q => snd (QueryContext q st)
  | OQueryRow q => snd (QueryRowContext q st)
  | OPrepare q => snd (PrepareContext U q st)
  | OExec q => snd (ExecContext q st)
  | OBeginTx => snd (BeginTx st)
  | OPing order => snd (PingContext order st)
  | OClose => snd (Close st)
  | OSetConnMaxLifetime d => snd (SetConnMaxLifetime d st)
  | OSetMaxIdleConns n => snd (SetMaxIdleConns n st)
  | OSetMaxOpenConns n => snd (SetMaxOpenConns n st)
  | OHandlesChange m rs => (changeHandles m rs (fst st), snd st)
  end.

Definition runOps (U : Unicode) (os : list operation) (st : state) : state :=
  fold_left (fun st o => runOp U o st) os st.

(** The calls that go through the selector: the two queries, and a prepare
    whose text is classified as a read. *)
Definition usesSelector (U : Unicode) (o : operation) : bool :=
  match o with
  | OQuery _ | OQueryRow _ => true
  | OPrepare q => HasPrefix (ToLower U (TrimSpace U q)) "select"
  | _ => false
  end.

(** What [n] selector calls in a row return. *)
Fixpoint selections (n : nat) (st : state) : list (res Z) :=
  match n with
  | O => []
  | S n' =>
      fst (readReplicaNumberRoundRobin st)
        :: selections n' (snd (readReplicaNumberRoundRobin st))
  end.

(** A text without its leading ASCII white space. *)
Fixpoint dropSpaces (s : list ascii) : list ascii :=
  match s with
  | [] => []
  | c :: s' => if asciiSpace c then dropSpaces s' else s
  end.

(** A computation that calls nothing but method [m] on replicas: from every
    state it keeps the replica slice and appends to the log only calls of
    [m] on replicas whose index is inside the slice. *)
Definition asksReplicas {A} (m : method) (c : M A) : Prop :=
  forall db log,
    readreplicas (fst (snd (c (db, log)))) = readreplicas db /\
    exists tried,
      snd (snd (c (db, log))) = log ++ attempts m tried /\
      Forall (fun i => 0 <= i < len db) tried.

Definition isPanic {A} (r : res A) : bool :=
  match r with Panic _ => true | _ => false end.

(** ** The Unicode slow paths of Go's [strings], as far as the route needs them *)

(** [utf8.RuneError], the rune of an invalid encoding. *)
Definition RuneError : Z := 65533.

(** [utf8.DecodeRuneInString]: the first rune of a text and its width in
    bytes.  An invalid or truncated encoding is [RuneError] of width 1. *)
Definition DecodeRuneInString (s : list ascii) : Z * nat :=
  match s with
  | [] => (RuneError, 0%nat)
  | c0 :: rest0 =>
      let s0 := byte c0 in
      if s0 <? RuneSelf then (s0, 1%nat)
      else if (s0 <? 194) || (244 <? s0) then (RuneError, 1%nat)
      else
        let sz := if s0 <? 224 then 2 else if s0 <? 240 then 3 else 4 in
        let lo := if s0 =? 224 then 160 else if s0 =? 240 then 144 else 128 in
        let hi := if s0 =? 237 then 159 else if s0 =? 244 then 143 else 191 in
        if Z.of_nat (List.length s) <? sz then (RuneError, 1%nat)
        else
          match rest0 with
          | [] => (RuneError, 1%nat)
          | c1 :: rest1 =>
              let s1 := byte c1 in
              if (s1 <? lo) || (hi <? s1) then (RuneError, 1%nat)
              else if sz <=? 2
              then (Z.lor (Z.shiftl (Z.land s0 31) 6) (Z.land s1 63), 2%nat)
              else
                match rest1 with
                | [] => (RuneError, 1%nat)
                | c2 :: rest2 =>
                    let s2 := byte c2 in
                    if (s2 <? 128) || (191 <? s2) then (RuneError, 1%nat)
                    else if sz <=? 3
                    then (Z.lor (Z.shiftl (Z.land s0 15) 12)
                            (Z.lor (Z.shiftl (Z.land s1 63) 6) (Z.land s2 63)),
                          3%nat)
                    else
                      match rest2 with
                      | [] => (RuneError, 1%nat)
                      | c3 :: _ =>
                          let s3 := byte c3 in
                          if (s3 <? 128) || (191 <? s3) then (RuneError, 1%nat)
                          else
                            (Z.lor (Z.shiftl (Z.land s0 7) 18)
                               (Z.lor (Z.shiftl (Z.land s1 63) 12)
                                  (Z.lor (Z.shiftl (Z.land s2 63) 6)
                                     (Z.land s3 63))),
                             4%nat)
                      end
                end
          end
  end.

(** [unicode.IsSpace]: in Latin-1 the six ASCII spaces, U+0085 and U+00A0;
    beyond it the code points of the property White_Space. *)
Definition IsSpace (r : Z) : bool :=
  if r <=? 255
  then ((9 <=? r) && (r <=? 13)) || (r =? 32) || (r =? 133) || (r =? 160)
  else (r =? 5760) || ((8192 <=? r) && (r <=? 8202)) || (r =? 8232)
       || (r =? 8233) || (r =? 8239) || (r =? 8287) || (r =? 12288).

(** [strings.TrimLeftFunc(s, unicode.IsSpace)]: the text from its first rune
    that is not white space on; [fuel] bounds the runes looked at. *)
Fixpoint TrimLeftFunc_loop (fuel : nat) (s : list ascii) : list ascii :=
  match fuel with
  | O => s
  | S fuel' =>
      match s with
      | [] => []
      | _ :: _ =>
          if IsSpace (fst (DecodeRuneInString s))
          then TrimLeftFunc_loop fuel' (skipn (snd (DecodeRuneInString s)) s)
          else s
      end
  end.

Definition TrimLeftFunc_IsSpace (s : list ascii) : list ascii :=
  TrimLeftFunc_loop (List.length s) s.

(** What the route needs to know of the slow paths, each a fact of Go's
    library:
    - [TrimFunc] is [TrimRightFunc] after [TrimLeftFunc];
    - [TrimRightFunc] cuts off a tail of white-space runes, whose bytes are
      ASCII spaces or bytes of a multi-byte encoding;
    - [Map(unicode.ToLower, s)] works rune by rune: nothing for the empty
      text, the ASCII lower case for an ASCII byte, and for a rune that
      starts with another byte an encoding whose first byte is none of the
      letters of "select" (no code point beyond ASCII has one of them as its
      lower case). *)
Record goStrings (U : Unicode) : Prop := mkGoStrings {
  go_TrimFunc : forall s,
    TrimFunc_IsSpace U s =
    TrimRightFunc_IsSpace U
      (string_of_list_ascii (TrimLeftFunc_IsSpace (list_ascii_of_string s)));
  go_TrimRightFunc : forall s, exists cut,
    list_ascii_of_string s =
      list_ascii_of_string (TrimRightFunc_IsSpace U s) ++ cut /\
    Forall (fun c => asciiSpace c = true \/ RuneSelf <= byte c) cut;
  go_Map_empty : Map_ToLower U EmptyString = EmptyString;
  go_Map_ascii : forall c s,
    byte c < RuneSelf ->
    Map_ToLower U (String c s) = String (lowerByte c) (Map_ToLower U s);
  go_Map_other : forall c s,
    RuneSelf <= byte c ->
    match Map_ToLower U (String c s) with
    | EmptyString => True
    | String b _ => ~ In b (list_ascii_of_string "select")
    end
}.

(** Slow paths that meet [goStrings]: the left trim of Go, no right trim
    and a byte-wise lower case. *)
Definition bytewise : Unicode :=
  mkUnicode
    (fun s => string_of_list_ascii (TrimLeftFunc_IsSpace (list_ascii_of_string s)))
    (fun s => s)
    (fun s => string_of_list_ascii (map lowerByte (list_ascii_of_string s))).

(** "Select 1" behind a no-break space (U+00A0, the bytes C2 A0). *)
Definition nbspSelect : string :=
  String (ascii_of_nat 194) (String (ascii_of_nat 160) "Select 1").

(** ** The classification in the words of the specification *)

(** One of tab, line feed, vertical tab, form feed, carriage return, space. *)
Definition isWhiteSpaceChar (c : ascii) : bool :=
  existsb (Ascii.eqb c)
    [ascii_of_nat 9; ascii_of_nat 10; ascii_of_nat 11; ascii_of_nat 12;
     ascii_of_nat 13; ascii_of_nat 32].

Fixpoint skipLeadingWhiteSpace (s : list ascii) : list ascii :=
  match s with
  | [] => []
  | c :: s' => if isWhiteSpaceChar c then skipLeadingWhiteSpace s' else s
  end.

Definition sameLetter (lower upper c : ascii) : bool :=
  Ascii.eqb c lower || Ascii.eqb c upper.

(** The text begins with "select", in any mix of upper and lower case. *)
Definition beginsWithSelect (s : list ascii) : bool :=
  match s with
  | c1 :: c2 :: c3 :: c4 :: c5 :: c6 :: _ =>
      sameLetter "s" "S" c1 && sameLetter "e" "E" c2 && sameLetter "l" "L" c3
      && sameLetter "e" "E" c4 && sameLetter "c" "C" c5 && sameLetter "t" "T" c6
  | _ => false
  end.

(** * Properties *)

(** ** Integers *)

Lemma wrapInt_small (z : Z) : minInt <= z <= maxInt -> wrapInt z = z.
Proof.
  unfold wrapInt, minInt, maxInt, intBits. intros H.
  rewrite Z.mod_small; lia.
Qed.

Lemma wrapInt_range (z : Z) : minInt <= wrapInt z <= maxInt.
Proof.
  unfold wrapInt, minInt, maxInt, intBits.
  pose proof (Z.mod_pos_bound (z + 2 ^ (64 - 1)) (2 ^ 64) ltac:(lia)). lia.
Qed.

Lemma wrapInt_add_idemp (z k : Z) :
  wrapInt (wrapInt z + k) = wrapInt (z + k).
Proof.
  unfold wrapInt, intBits.
  f_equal.
  replace ((z + 2 ^ (64 - 1)) mod 2 ^ 64 - 2 ^ (64 - 1) + k + 2 ^ (64 - 1))
    with ((z + 2 ^ (64 - 1)) mod 2 ^ 64 + k) by lia.
  rewrite Z.add_mod_idemp_l by lia. f_equal. lia.
Qed.

Lemma goRem_mod (a b : Z) : 0 <= a -> 0 < b -> goRem a b = a mod b.
Proof. intros. unfold goRem. apply Z.rem_mod_nonneg; assumption. Qed.

(** ** The selector *)

Lemma selector_eq (db : DB) (log : list event) :
  readReplicaNumberRoundRobin (db, log) =
  (if len db =? 0 then Panic "integer divide by zero"
   else Val (goRem (wrapInt (count db + 1)) (len db)),
   (setCount db (wrapInt (count db + 1)), log)).
Proof.
  unfold readReplicaNumberRoundRobin, bind, getDB, putCount, panic, ret. simpl.
  destruct (len db =? 0); reflexivity.
Qed.

Lemma len_setCount (db : DB) (c : Z) : len (setCount db c) = len db.
Proof. reflexivity. Qed.

Lemma selector_in_range (db : DB) (log : list event) :
  1 <= len db -> 0 <= count db < maxInt ->
  readReplicaNumberRoundRobin (db, log) =
  (Val ((count db + 1) mod len db), (setCount db (count db + 1), log)) /\
  0 <= (count db + 1) mod len db < len db.
Proof.
  intros HN Hc. rewrite selector_eq.
  assert (E : (len db =? 0) = false) by (apply Z.eqb_neq; lia).
  rewrite E, wrapInt_small by (unfold minInt, maxInt, intBits in *; lia).
  rewrite goRem_mod by lia.
  split; [reflexivity | apply Z.mod_pos_bound; lia].
Qed.

(** ** Indexing the replica slice *)

Lemma replicaAt_in_range (db : DB) (log : list event) (i : Z) :
  0 <= i < len db ->
  exists h, nth_error (readreplicas db) (Z.to_nat i) = Some h /\
            replicaAt i (db, log) = (Val h, (db, log)).
Proof.
  intros Hi. unfold replicaAt, bind, getDB. simpl.
  destruct (nth_error (readreplicas db) (Z.to_nat i)) as [h|] eqn:E.
  - exists h. split; [reflexivity|].
    replace (0 <=? i) with true by (symmetry; apply Z.leb_le; lia).
    replace (i <? len db) with true by (symmetry; apply Z.ltb_lt; lia).
    reflexivity.
  - exfalso. apply nth_error_None in E. unfold len in Hi. lia.
Qed.

Lemma onReplica_in_range {A} (db : DB) (log : list event) (i : Z) (m : method)
    (op : SqlDB -> A) :
  0 <= i < len db ->
  exists h, nth_error (readreplicas db) (Z.to_nat i) = Some h /\
            onReplica i m op (db, log) = (Val (op h), (db, log ++ [(Replica i, m)])).
Proof.
  intros Hi. destruct (replicaAt_in_range db log i Hi) as (h & E & R).
  exists h. split; [exact E|].
  unfold onReplica, bind. rewrite R. reflexivity.
Qed.

Lemma onReplica_out_of_range {A} (db : DB) (log : list event) (i : Z) (m : method)
    (op : SqlDB -> A) :
  i < 0 ->
  onReplica i m op (db, log) = (Panic "index out of range", (db, log)).
Proof.
  intros Hi. unfold onReplica, replicaAt, bind, getDB, panic. simpl.
  replace (0 <=? i) with false by (symmetry; apply Z.leb_gt; lia).
  reflexivity.
Qed.

(** ** The failover walk *)

Lemma QueryContext_loop_walk (fuel : nat) (q : string) (r i : Z) (st : state) :
  QueryContext_loop fuel q r i st =
  walk_loop fuel (MQuery q) (fun h => h_query h q) r i st.
Proof.
  revert i st. induction fuel as [|fuel IH]; intros i st; [reflexivity|].
  simpl. unfold bind. destruct (getDB st) as [[db| |] st1]; try reflexivity.
  destruct (goRem i (len db) =? r); [reflexivity|].
  destruct (onReplica _ _ _ st1) as [[[rows|e]| |] st2]; try reflexivity.
  apply IH.
Qed.

Lemma prepare_loop_walk (fuel : nat) (q : string) (r i : Z) (st : state) :
  prepare_loop fuel q r i st =
  walk_loop fuel (MPrepare q) (fun h => h_prepare h q) r i st.
Proof.
  revert i st. induction fuel as [|fuel IH]; intros i st; [reflexivity|].
  simpl. unfold bind. destruct (getDB st) as [[db| |] st1]; try reflexivity.
  destruct (goRem i (len db) =? r); [reflexivity|].
  destruct (onReplica _ _ _ st1) as [[[stmt|e]| |] st2]; try reflexivity.
  apply IH.
Qed.

Lemma rotation_step_neq (s N k : Z) :
  0 <= s < N -> 1 <= k < N -> (s + k) mod N <> s.
Proof.
  intros Hs Hk E.
  destruct (Z_lt_le_dec (s + k) N) as [L|L].
  - rewrite Z.mod_small in E by lia. lia.
  - replace (s + k) with ((s + k - N) + 1 * N) in E by lia.
    rewrite Z.mod_add in E by lia.
    rewrite Z.mod_small in E by lia. lia.
Qed.

Lemma rotation_full_cycle (s N : Z) : 0 <= s < N -> (s + N) mod N = s.
Proof.
  intros Hs. replace (s + N) with (s + 1 * N) by lia.
  rewrite Z.mod_add by lia. apply Z.mod_small; lia.
Qed.

(** The loop, entered [k] steps after the start index with enough fuel,
    does what [tryInOrder] does on the rest of the rotation: it returns, it
    leaves the router alone and logs one call per index tried. *)
Lemma walk_loop_spec {A} (m : method) (op : SqlDB -> Result A) (db : DB) (s : Z) :
  1 <= len db <= maxReplicas -> 0 <= s < len db ->
  forall (d k fuel : nat) (log : list event),
    (1 <= k)%nat -> Z.of_nat (k + d) = len db -> (d < fuel)%nat ->
    walk_loop fuel m op s (s + Z.of_nat k) (db, log) =
    (Val (snd (tryInOrder (answerAt db op) (rotationFrom s (len db) k d))),
     (db, log ++ attempts m (fst (tryInOrder (answerAt db op)
                                    (rotationFrom s (len db) k d))))).
Proof.
  intros HN Hs. unfold maxReplicas, intBits in HN.
  induction d as [|d IH]; intros k fuel log Hk Hkd Hf.
  - destruct fuel as [|fuel]; [lia|].
    simpl. unfold bind, getDB. simpl.
    rewrite goRem_mod by lia.
    replace (Z.of_nat k) with (len db) by lia.
    rewrite rotation_full_cycle by lia. rewrite Z.eqb_refl.
    unfold ret. rewrite app_nil_r. reflexivity.
  - destruct fuel as [|fuel]; [lia|].
    simpl. unfold bind at 1. unfold getDB at 1. simpl.
    rewrite goRem_mod by lia.
    assert (Hne : ((s + Z.of_nat k) mod len db =? s) = false)
      by (apply Z.eqb_neq, rotation_step_neq; lia).
    rewrite Hne.
    assert (Hin : 0 <= (s + Z.of_nat k) mod len db < len db)
      by (apply Z.mod_pos_bound; lia).
    destruct (onReplica_in_range db log _ m op Hin) as (h & Eh & Ecall).
    unfold bind. rewrite Ecall.
    unfold answerAt at 1 3. rewrite Eh.
    destruct (op h) as [a|e].
    + reflexivity.
    + rewrite wrapInt_small
        by (unfold minInt, maxInt, intBits; lia).
      replace (s + Z.of_nat k + 1) with (s + Z.of_nat (S k)) by lia.
      rewrite (IH (S k) fuel) by lia.
      fold (rotationFrom s (len db) (S k) d).
      destruct (tryInOrder (answerAt db op) (rotationFrom s (len db) (S k) d))
        as [tried r].
      simpl. rewrite <- app_assoc. reflexivity.
Qed.

Lemma QueryContext_walk (q : string) (st : state) :
  QueryContext q st = walk (MQuery q) (fun h => h_query h q) st.
Proof.
  unfold QueryContext, walk, bind.
  destruct (readReplicaNumberRoundRobin st) as [[s| |] st1]; try reflexivity.
  destruct (onReplica _ _ _ st1) as [[[rows|e]| |] st2]; try reflexivity.
  destruct (getDB st2) as [[db| |] st3]; try reflexivity.
  apply QueryContext_loop_walk.
Qed.

Lemma prepare_walk (q : string) (st : state) :
  prepare q st = walk (MPrepare q) (fun h => h_prepare h q) st.
Proof.
  unfold prepare, walk, bind.
  destruct (readReplicaNumberRoundRobin st) as [[s| |] st1]; try reflexivity.
  destruct (onReplica _ _ _ st1) as [[[stmt|e]| |] st2]; try reflexivity.
  destruct (getDB st2) as [[db| |] st3]; try reflexivity.
  apply prepare_loop_walk.
Qed.

Lemma rotation_unfold (s N : Z) :
  0 <= s < N ->
  rotation s N = s :: rotationFrom s N 1 (Z.to_nat N - 1).
Proof.
  intros Hs. unfold rotation, rotationFrom.
  replace (Z.to_nat N) with (S (Z.to_nat N - 1)) at 1 by lia.
  simpl. f_equal. rewrite Z.add_0_r. apply Z.mod_small; lia.
Qed.

Lemma rotation_length (s N : Z) : List.length (rotation s N) = Z.to_nat N.
Proof. unfold rotation. rewrite length_map. apply length_seq. Qed.

Lemma rotation_value (s N j : Z) :
  0 <= s < N -> 0 <= j < N ->
  (s + j) mod N = if s + j <? N then s + j else s + j - N.
Proof.
  intros Hs Hj. destruct (Z.ltb_spec (s + j) N).
  - apply Z.mod_small; lia.
  - replace (s + j) with ((s + j - N) + 1 * N) at 1 by lia.
    rewrite Z.mod_add by lia. apply Z.mod_small; lia.
Qed.

Lemma NoDup_map_on {X Y} (f : X -> Y) (l : list X) :
  (forall x y, In x l -> In y l -> f x = f y -> x = y) ->
  NoDup l -> NoDup (map f l).
Proof.
  intros Hinj Hnd. induction Hnd as [|x l Hx Hnd IH]; simpl; constructor.
  - intros Hin. apply in_map_iff in Hin. destruct Hin as (y & Ey & Hy).
    assert (y = x) by (apply Hinj; simpl; auto). subst y. contradiction.
  - apply IH. intros a b Ha Hb. apply Hinj; simpl; auto.
Qed.

Lemma rotation_NoDup (s N : Z) : 0 <= s < N -> NoDup (rotation s N).
Proof.
  intros Hs. unfold rotation. apply NoDup_map_on; [|apply seq_NoDup].
  intros x y Hx Hy E. apply in_seq in Hx, Hy.
  rewrite !rotation_value in E by lia.
  destruct (Z.ltb_spec (s + Z.of_nat x) N), (Z.ltb_spec (s + Z.of_nat y) N); lia.
Qed.

Lemma rotation_in_range (s N i : Z) :
  0 < N -> In i (rotation s N) -> 0 <= i < N.
Proof.
  intros HN Hin. unfold rotation in Hin. apply in_map_iff in Hin.
  destruct Hin as (k & <- & _). apply Z.mod_pos_bound; lia.
Qed.

(** What [tryInOrder] produces on a list without repetition. *)
Lemma tryInOrder_outcome {A} (attempt : Z -> Result A) (l : list Z) :
  NoDup l ->
  let tried := fst (tryInOrder attempt l) in
  let r := snd (tryInOrder attempt l) in
  (exists rest, l = tried ++ rest) /\
  NoDup tried /\
  (List.length tried <= List.length l)%nat /\
  ((exists before j a,
       tried = before ++ [j] /\
       Forall (fun i => isSuccess (attempt i) = false) before /\
       attempt j = Success a /\ r = Success a)
   \/
   (tried = l /\
    Forall (fun i => isSuccess (attempt i) = false) tried /\
    r = Failure noReplicaAvailableError)).
Proof.
  induction l as [|i l IH]; intros Hnd; simpl.
  - repeat split.
    + exists []. reflexivity.
    + constructor.
    + lia.
    + right. repeat split. constructor.
  - inversion Hnd as [|? ? Hi Hnd']; subst.
    destruct (attempt i) as [a|e] eqn:Ei.
    + simpl. repeat split.
      * exists l. reflexivity.
      * constructor; [intros []|constructor].
      * lia.
      * left. exists [], i, a. repeat split; [constructor|exact Ei].
    + specialize (IH Hnd'). simpl in IH.
      destruct (tryInOrder attempt l) as [tried r]. simpl in *.
      destruct IH as ((rest & Erest) & Hnd2 & Hlen & Hcase).
      repeat split.
      * exists rest. rewrite Erest at 1. reflexivity.
      * constructor; [|exact Hnd2].
        intros Hin. apply Hi. rewrite Erest. apply in_or_app. left. exact Hin.
      * lia.
      * destruct Hcase as [(before & j & a & E1 & E2 & E3 & E4)|(E1 & E2 & E3)].
        -- left. exists (i :: before), j, a. repeat split; try assumption.
           ++ rewrite E1. reflexivity.
           ++ constructor; [rewrite Ei; reflexivity|exact E2].
        -- right. repeat split; try assumption.
           ++ rewrite E1. reflexivity.
           ++ constructor; [rewrite Ei; reflexivity|exact E2].
Qed.

Lemma tryInOrder_walkOutcome {A} (attempt : Z -> Result A) (s N : Z) :
  0 <= s < N ->
  walkOutcome attempt s N
    (fst (tryInOrder attempt (rotation s N)))
    (snd (tryInOrder attempt (rotation s N))).
Proof.
  intros Hs.
  pose proof (tryInOrder_outcome attempt (rotation s N) (rotation_NoDup s N Hs))
    as (H1 & H2 & H3 & H4).
  unfold walkOutcome. repeat split; try assumption.
  rewrite rotation_length in H3. lia.
Qed.

(** The shared body, from any router state whose counter has not reached
    [maxInt]: one selection, then the walk of [tryInOrder] over the rotation
    that starts at the selected index. *)
Lemma walk_spec {A} (m : method) (op : SqlDB -> Result A) (db : DB)
    (log : list event) :
  1 <= len db <= maxReplicas -> 0 <= count db < maxInt ->
  let s := (count db + 1) mod len db in
  let T := tryInOrder (answerAt db op) (rotation s (len db)) in
  walk m op (db, log) =
  (Val (snd T), (setCount db (count db + 1), log ++ attempts m (fst T))).
Proof.
  intros HN Hc s T.
  destruct (selector_in_range db log) as (Esel & Hs); [lia|exact Hc|].
  fold s in Esel, Hs.
  unfold walk. unfold bind at 1. rewrite Esel.
  set (db' := setCount db (count db + 1)).
  assert (Hs' : 0 <= s < len db') by exact Hs.
  destruct (onReplica_in_range db' log s m op Hs') as (h & Eh & Ecall).
  unfold bind at 1. rewrite Ecall.
  subst T. rewrite rotation_unfold by exact Hs.
  simpl. unfold answerAt at 1 3.
  change (readreplicas db') with (readreplicas db) in Eh. rewrite Eh.
  destruct (op h) as [a|e]; [reflexivity|].
  unfold bind, getDB. simpl fst. cbv iota beta.
  unfold maxReplicas, intBits in HN.
  rewrite wrapInt_small by (unfold minInt, maxInt, intBits; lia).
  change (s + 1) with (s + Z.of_nat 1).
  assert (HN' : 1 <= len db' <= maxReplicas)
    by (unfold maxReplicas, intBits; change (len db') with (len db); lia).
  assert (Hfuel : (Z.to_nat (len db) - 1 < List.length (readreplicas db'))%nat)
    by (change (readreplicas db') with (readreplicas db); unfold len in *; lia).
  assert (Hsum : Z.of_nat (1 + (Z.to_nat (len db) - 1)) = len db') by
    (change (len db') with (len db); lia).
  rewrite (walk_loop_spec m op db' s HN' Hs' _ 1%nat _ _ (le_n 1) Hsum Hfuel).
  change (len db') with (len db).
  change (answerAt db' op) with (answerAt db op).
  destruct (tryInOrder (answerAt db op)
              (rotationFrom s (len db) 1 (Z.to_nat (len db) - 1))) as [tried r].
  simpl. rewrite <- app_assoc. reflexivity.
Qed.

(** C1.  Failover walk of [QueryContext] and of the read-path [prepare].
    For a router with [N >= 1] replicas and any state of the counter below
    [maxInt], let [s] be the index the selector picks.  Both operations
    return (no panic, no endless loop), advance the counter once and log
    the list [tried] of replicas they asked, where [tried] is an initial
    segment of [s, (s+1) mod N, (s+2) mod N, ...] that has no repetition and
    at most [N] entries; the result is the answer of the first replica that
    succeeds, which is the last one tried, and when the whole cycle fails it
    is the error "No replica is alive for reading data". *)
Theorem failover_walk_first_success (db : DB) (log : list event) (q : string) :
  1 <= len db <= maxReplicas ->
  0 <= count db < maxInt ->
  let N := len db in
  let s := (count db + 1) mod N in
  0 <= s < N /\
  (exists tried r,
      QueryContext q (db, log) =
        (Val r, (setCount db (count db + 1), log ++ attempts (MQuery q) tried)) /\
      walkOutcome (answerAt db (fun h => h_query h q)) s N tried r) /\
  (exists tried r,
      prepare q (db, log) =
        (Val r, (setCount db (count db + 1), log ++ attempts (MPrepare q) tried)) /\
      walkOutcome (answerAt db (fun h => h_prepare h q)) s N tried r).
Proof.
  intros HN Hc N s.
  assert (Hs : 0 <= s < N) by (apply Z.mod_pos_bound; unfold N; lia).
  split; [exact Hs|]. split.
  - exists (fst (tryInOrder (answerAt db (fun h => h_query h q)) (rotation s N))),
           (snd (tryInOrder (answerAt db (fun h => h_query h q)) (rotation s N))).
    split.
    + rewrite QueryContext_walk. apply walk_spec; assumption.
    + apply tryInOrder_walkOutcome. exact Hs.
  - exists (fst (tryInOrder (answerAt db (fun h => h_prepare h q)) (rotation s N))),
           (snd (tryInOrder (answerAt db (fun h => h_prepare h q)) (rotation s N))).
    split.
    + rewrite prepare_walk. apply walk_spec; assumption.
    + apply tryInOrder_walkOutcome. exact Hs.
Qed.

Lemma failover_walk_first_success_witness :
  exists tried r,
    QueryContext "Query1" (twoDown, []) =
      (Val r, (setCount twoDown 3, attempts (MQuery "Query1") tried)) /\
    walkOutcome (answerAt twoDown (fun h => h_query h "Query1")) 0 3 tried r.
Proof.
  assert (H1 : 1 <= len twoDown <= maxReplicas)
    by (unfold len, maxReplicas, intBits; simpl; lia).
  assert (H2 : 0 <= count twoDown < maxInt)
    by (unfold maxInt, intBits; simpl; lia).
  exact (proj1 (proj2 (failover_walk_first_success twoDown [] "Query1" H1 H2))).
Defined.

(** [TestDB_Query]: two replicas; the first two queries are answered by the
    second and by the first replica; once the first replica is closed, five
    more queries are all answered by the second; once both are closed, a
    query returns the error and no rows. *)
Example QueryContext_test :
  let m := openDB "master" in
  let fresh := mkDB 0 m [openDB "r1"; openDB "r2"] in
  fst (QueryContext "Query1" (fresh, [])) = Val (Success (mkRows ["r2"])) /\
  fst (QueryContext "Query1" (setCount fresh 1, [])) = Val (Success (mkRows ["r1"])) /\
  (forall c, In c [2; 3; 4; 5; 6] ->
     fst (QueryContext "Query" (mkDB c m [closedDB; openDB "r2"], []))
       = Val (Success (mkRows ["r2"]))) /\
  QueryContext "Query1" (mkDB 7 m [closedDB; closedDB], []) =
    (Val (Failure noReplicaAvailableError),
     (mkDB 8 m [closedDB; closedDB],
      [(Replica 0, MQuery "Query1"); (Replica 1, MQuery "Query1")])).
Proof.
  repeat split.
  intros c Hc. simpl in Hc.
  repeat (destruct Hc as [<-|Hc]; [reflexivity|]). destruct Hc.
Qed.

(** ** The counter *)

Lemma preserves_ret {A} (a : A) : preserves (ret a).
Proof. intros st. reflexivity. Qed.

Lemma preserves_panic {A} (msg : string) : preserves (@panic A msg).
Proof. intros st. reflexivity. Qed.

Lemma preserves_stuck {A} : preserves (@stuck A).
Proof. intros st. reflexivity. Qed.

Lemma preserves_getDB : preserves getDB.
Proof. intros st. reflexivity. Qed.

Lemma preserves_call (t : target) (m : method) : preserves (call t m).
Proof. intros st. reflexivity. Qed.

Lemma preserves_bind {A B} (m : M A) (f : A -> M B) :
  preserves m -> (forall a, preserves (f a)) -> preserves (bind m f).
Proof.
  intros Hm Hf st. unfold bind. specialize (Hm st).
  destruct (m st) as [[a| |] st1]; simpl in *; try exact Hm.
  rewrite Hf. exact Hm.
Qed.

Create HintDb frame.

#[local] Hint Resolve preserves_ret preserves_panic preserves_stuck
  preserves_getDB preserves_call : frame.

Ltac frame :=
  repeat first
    [ apply preserves_bind; [|intro]
    | solve [auto with frame]
    | match goal with
      | |- preserves (if ?b then _ else _) => destruct b
      | |- preserves (match ?x with _ => _ end) => destruct x
      end ].

Lemma preserves_replicaAt (i : Z) : preserves (replicaAt i).
Proof. unfold replicaAt. frame. Qed.

Lemma preserves_onReplica {A} (i : Z) (m : method) (op : SqlDB -> A) :
  preserves (onReplica i m op).
Proof. unfold onReplica. pose proof preserves_replicaAt. frame. Qed.

Lemma preserves_onMaster {A} (m : method) (op : SqlDB -> A) :
  preserves (onMaster m op).
Proof. unfold onMaster. frame. Qed.

#[local] Hint Resolve preserves_replicaAt preserves_onReplica
  preserves_onMaster : frame.

Lemma preserves_walk_loop {A} (fuel : nat) (m : method) (op : SqlDB -> Result A)
    (r i : Z) : preserves (walk_loop fuel m op r i).
Proof.
  revert i. induction fuel as [|fuel IH]; intros i; simpl; frame.
Qed.

Lemma preserves_Close_loop (rs : list SqlDB) (i : Z) (e : error) :
  preserves (Close_loop rs i e).
Proof.
  revert i e. induction rs as [|h rs IH]; intros i e; simpl; frame.
Qed.

Lemma preserves_tune_loop (rs : list SqlDB) (i : Z) (m : method) :
  preserves (tune_loop rs i m).
Proof.
  revert i. induction rs as [|h rs IH]; intros i; simpl; frame.
Qed.

Lemma preserves_ping (i : Z) : preserves (ping i).
Proof. unfold ping. frame. Qed.

Lemma preserves_fanOut (order : list Z) : preserves (fanOut order).
Proof.
  pose proof preserves_ping.
  induction order as [|i order IH]; simpl; frame.
Qed.

Lemma preserves_collect (n : nat) (ch : list pingChanResponse) (es : list string) :
  preserves (PingContext_collect n ch es).
Proof.
  revert ch es. induction n as [|n IH]; intros ch es; simpl.
  - frame.
  - destruct (recv ch false) as [[[resp ok] ch']|]; [|frame].
    destruct (negb ok); [frame|]. destruct (err resp); apply IH.
Qed.

#[local] Hint Resolve preserves_walk_loop preserves_Close_loop
  preserves_tune_loop preserves_fanOut preserves_collect : frame.

(** A read that goes through the selector increments once, whatever comes
    after the selection. *)
Lemma selector_then {A} (k : Z -> M A) (db : DB) (log : list event) :
  (forall i, preserves (k i)) ->
  fst (snd (bind readReplicaNumberRoundRobin k (db, log))) = increment db.
Proof.
  intros Hk. unfold bind. rewrite selector_eq.
  destruct (len db =? 0); [reflexivity|].
  rewrite Hk. reflexivity.
Qed.

Lemma walk_count {A} (m : method) (op : SqlDB -> Result A) (db : DB)
    (log : list event) :
  fst (snd (walk m op (db, log))) = increment db.
Proof. unfold walk. apply selector_then. intro i. frame. Qed.

(** C10.  One counter, one increment per read call.  From every state of
    the router and for every text, [QueryContext], [QueryRowContext] and
    [prepare] (and so [PrepareContext] on its read path) leave the router
    with [db.count++] applied exactly once, however many replicas the walk
    asks and whatever the outcome; [ExecContext], [BeginTx], [PingContext],
    [Close], the three pool-tuning methods and [PrepareContext] on its
    master path leave the router, counter included, unchanged. *)
Theorem counter_frame (U : Unicode) (db : DB) (log : list event) (q : string)
    (order : list Z) (d n : Z) :
  (fst (snd (QueryContext q (db, log))) = increment db /\
   fst (snd (QueryRowContext q (db, log))) = increment db /\
   fst (snd (prepare q (db, log))) = increment db) /\
  (fst (snd (ExecContext q (db, log))) = db /\
   fst (snd (BeginTx (db, log))) = db /\
   fst (snd (PingContext order (db, log))) = db /\
   fst (snd (Close (db, log))) = db /\
   fst (snd (SetConnMaxLifetime d (db, log))) = db /\
   fst (snd (SetMaxIdleConns n (db, log))) = db /\
   fst (snd (SetMaxOpenConns n (db, log))) = db) /\
  fst (snd (PrepareContext U q (db, log))) =
    (if HasPrefix (ToLower U (TrimSpace U q)) "select" then increment db else db).
Proof.
  assert (Hwrite : forall A (m : M A), preserves m -> fst (snd (m (db, log))) = db)
    by (intros A m H; apply H).
  split; [|split].
  - split; [|split].
    + rewrite QueryContext_walk. apply walk_count.
    + unfold QueryRowContext. apply selector_then. intro i. frame.
    + rewrite prepare_walk. apply walk_count.
  - repeat match goal with |- _ /\ _ => split end; apply Hwrite.
    + unfold ExecContext. frame.
    + unfold BeginTx. frame.
    + unfold PingContext. frame.
    + unfold Close. frame.
    + unfold SetConnMaxLifetime, tune. frame.
    + unfold SetMaxIdleConns, tune. frame.
    + unfold SetMaxOpenConns, tune. frame.
  - unfold PrepareContext.
    destruct (HasPrefix (ToLower U (TrimSpace U q)) "select"); cbn [negb].
    + rewrite prepare_walk. apply walk_count.
    + apply Hwrite. frame.
Qed.

(** A walk over three replicas asks all three and still counts once. *)
Example counter_once_despite_failover :
  let db := mkDB 0 (openDB "master") [closedDB; closedDB; closedDB] in
  QueryContext "Query1" (db, []) =
    (Val (Failure noReplicaAvailableError),
     (setCount db 1,
      [(Replica 1, MQuery "Query1"); (Replica 2, MQuery "Query1");
       (Replica 0, MQuery "Query1")])).
Proof. reflexivity. Qed.

(** In every state, whatever the counter and the replicas are,
    [QueryRowContext] makes at most one call on a handle. *)
Lemma QueryRowContext_single_call (db : DB) (log : list event) (q : string) :
  exists calls,
    snd (snd (QueryRowContext q (db, log))) = log ++ calls /\
    (List.length calls <= 1)%nat.
Proof.
  unfold QueryRowContext, bind. rewrite selector_eq.
  destruct (len db =? 0).
  - exists []. rewrite app_nil_r. split; [reflexivity|simpl; lia].
  - unfold onReplica, replicaAt, bind, getDB, call, ret, panic. cbn [fst snd].
    destruct ((0 <=? _) && (_ <? _)).
    + destruct (nth_error _ _).
      * eexists [_]. split; [reflexivity|simpl; lia].
      * exists []. rewrite app_nil_r. split; [reflexivity|simpl; lia].
    + exists []. rewrite app_nil_r. split; [reflexivity|simpl; lia].
Qed.

(** C8.  [QueryRowContext] does not walk.  In every state it makes at most
    one call on a handle.  From every state below [maxInt] of a router with
    at least one replica, it asks the one replica the selector picks, once,
    and returns the row handle of that replica as it is: nothing about the
    health of the replica is assumed or looked at, and no other handle is
    asked. *)
Theorem QueryRowContext_no_failover (db : DB) (log : list event) (q : string) :
  (exists calls,
      snd (snd (QueryRowContext q (db, log))) = log ++ calls /\
      (List.length calls <= 1)%nat) /\
  (1 <= len db ->
   0 <= count db < maxInt ->
   let s := (count db + 1) mod len db in
   exists h,
     nth_error (readreplicas db) (Z.to_nat s) = Some h /\
     nextIndex (db, log) = Val s /\
     QueryRowContext q (db, log) =
       (Val (h_queryRow h q),
        (setCount db (count db + 1), log ++ [(Replica s, MQueryRow q)]))).
Proof.
  split; [apply QueryRowContext_single_call|].
  intros HN Hc s.
  destruct (selector_in_range db log HN Hc) as (Esel & Hs). fold s in Esel, Hs.
  destruct (onReplica_in_range (setCount db (count db + 1)) log s (MQueryRow q)
              (fun h => h_queryRow h q) Hs) as (h & Eh & Ecall).
  exists h. split; [exact Eh|]. split.
  - unfold nextIndex. rewrite Esel. reflexivity.
  - unfold QueryRowContext, bind. rewrite Esel. exact Ecall.
Qed.

Lemma QueryRowContext_no_failover_witness :
  exists h,
    nth_error (readreplicas twoDown) (Z.to_nat 0) = Some h /\
    nextIndex (twoDown, []) = Val 0 /\
    QueryRowContext "Query1" (twoDown, []) =
      (Val (h_queryRow h "Query1"),
       (setCount twoDown 3, [(Replica 0, MQueryRow "Query1")])).
Proof.
  assert (H1 : 1 <= len twoDown) by (unfold len; simpl; lia).
  assert (H2 : 0 <= count twoDown < maxInt)
    by (unfold maxInt, intBits; simpl; lia).
  exact (proj2 (QueryRowContext_no_failover twoDown [] "Query1") H1 H2).
Defined.

(** The replica picked is closed, and the row handle is still the one it
    returned: the error waits in the row. *)
Example QueryRowContext_on_closed_replica :
  fst (QueryRowContext "Query1" (twoDown, [])) = Val (mkRow (Failure closedError)) /\
  snd (snd (QueryRowContext "Query1" (twoDown, []))) = [(Replica 0, MQueryRow "Query1")].
Proof. split; reflexivity. Qed.

(** ** Round robin *)

Lemma setCount_same (db : DB) : setCount db (count db) = db.
Proof. destruct db; reflexivity. Qed.

Lemma runRead_db (c : readCall) (db : DB) (log : list event) :
  fst (runRead c (db, log)) = increment db.
Proof.
  destruct c as [q|q|q]; unfold runRead.
  - rewrite QueryContext_walk. apply walk_count.
  - unfold QueryRowContext. apply selector_then. intro i. frame.
  - rewrite prepare_walk. apply walk_count.
Qed.

(** The counter after a sequence of read calls: it has been incremented
    once per call, with Go's wrap-around. *)
Lemma runReads_db (cs : list readCall) (db : DB) (log : list event) :
  minInt <= count db <= maxInt ->
  fst (runReads cs (db, log)) =
  setCount db (wrapInt (count db + Z.of_nat (List.length cs))).
Proof.
  revert db log. induction cs as [|c cs IH]; intros db log Hc.
  - simpl. rewrite Z.add_0_r, wrapInt_small by exact Hc.
    symmetry. apply setCount_same.
  - change (runReads (c :: cs) (db, log)) with (runReads cs (runRead c (db, log))).
    pose proof (runRead_db c db log) as E.
    destruct (runRead c (db, log)) as [db1 log1]. simpl in E. subst db1.
    rewrite IH by (simpl; apply wrapInt_range).
    unfold increment, setCount. simpl count. simpl master. simpl readreplicas.
    f_equal. rewrite wrapInt_add_idemp. f_equal.
    rewrite length_cons, Nat2Z.inj_succ. lia.
Qed.

Lemma afterSelections_eq (k : N) (db : DB) (log : list event) :
  minInt <= count db <= maxInt ->
  afterSelections k (db, log) =
  (setCount db (wrapInt (count db + Z.of_N k)), log).
Proof.
  intros Hc. unfold afterSelections.
  induction k as [|k IH] using N.peano_ind.
  - simpl. rewrite Z.add_0_r, wrapInt_small by exact Hc.
    rewrite setCount_same. reflexivity.
  - rewrite N.iter_succ, IH, selector_eq. simpl snd.
    unfold setCount. simpl count. simpl master. simpl readreplicas.
    f_equal. f_equal. rewrite wrapInt_add_idemp. f_equal. lia.
Qed.

Lemma New_ok (m : SqlDB) (rs : list SqlDB) (db : DB) :
  New m rs = Success db -> db = mkDB 0 m rs /\ 1 <= len db.
Proof.
  unfold New. destruct (Z.eqb_spec (Z.of_nat (List.length rs)) 0) as [E|E];
    [discriminate|].
  intros H. injection H as <-. split; [reflexivity|]. unfold len. simpl. lia.
Qed.

(** A read on the selected replica that succeeds ends the call there. *)
Lemma walk_first_try {A} (m : method) (op : SqlDB -> Result A) (db : DB)
    (log : list event) (h : SqlDB) :
  1 <= len db -> 0 <= count db < maxInt ->
  nth_error (readreplicas db) (Z.to_nat ((count db + 1) mod len db)) = Some h ->
  isSuccess (op h) = true ->
  walk m op (db, log) =
  (Val (op h), (setCount db (count db + 1),
                log ++ [(Replica ((count db + 1) mod len db), m)])).
Proof.
  intros HN Hc Eh Hok.
  destruct (selector_in_range db log HN Hc) as (Esel & Hs).
  destruct (onReplica_in_range (setCount db (count db + 1)) log _ m op Hs)
    as (h' & Eh' & Ecall).
  change (readreplicas (setCount db (count db + 1))) with (readreplicas db) in Eh'.
  rewrite Eh in Eh'. injection Eh' as <-.
  unfold walk. unfold bind at 1. rewrite Esel.
  unfold bind. rewrite Ecall.
  destruct (op h) as [a|e]; [reflexivity|discriminate].
Qed.

Lemma QueryRowContext_eq (db : DB) (log : list event) (q : string) :
  1 <= len db -> 0 <= count db < maxInt ->
  snd (QueryRowContext q (db, log)) =
  (setCount db (count db + 1),
   log ++ [(Replica ((count db + 1) mod len db), MQueryRow q)]).
Proof.
  intros HN Hc.
  destruct (selector_in_range db log HN Hc) as (Esel & Hs).
  destruct (onReplica_in_range (setCount db (count db + 1)) log _ (MQueryRow q)
              (fun h => h_queryRow h q) Hs) as (h & _ & Ecall).
  unfold QueryRowContext, bind. rewrite Esel, Ecall. reflexivity.
Qed.

(** With every replica healthy, a read call asks the selected replica and
    no other. *)
Lemma runRead_healthy (c : readCall) (db : DB) (log : list event) :
  1 <= len db -> 0 <= count db < maxInt ->
  Forall healthy (readreplicas db) ->
  runRead c (db, log) =
  (setCount db (count db + 1),
   log ++ [(Replica ((count db + 1) mod len db), methodOf c)]).
Proof.
  intros HN Hc Hh.
  destruct (selector_in_range db log HN Hc) as (_ & Hs).
  destruct (nth_error (readreplicas db) (Z.to_nat ((count db + 1) mod len db)))
    as [h|] eqn:Eh;
    [|apply nth_error_None in Eh; unfold len in *; lia].
  assert (Hhealthy : healthy h).
  { rewrite Forall_forall in Hh. apply Hh. eapply nth_error_In. exact Eh. }
  destruct c as [q|q|q]; unfold runRead, methodOf.
  - rewrite QueryContext_walk.
    rewrite (walk_first_try _ _ db log h HN Hc Eh); [reflexivity|].
    apply (Hhealthy q).
  - apply QueryRowContext_eq; assumption.
  - rewrite prepare_walk.
    rewrite (walk_first_try _ _ db log h HN Hc Eh); [reflexivity|].
    apply (Hhealthy q).
Qed.

(** C2 (as amended).  Round robin on a fresh router.  On a router just
    built by [New] whose replicas are all healthy, the [k]-th read call
    ([QueryContext], [QueryRowContext] or [prepare], after any [k-1] read
    calls) is handed index [k mod N] by the selector and asks that replica
    and no other, for every [k] from 1 to [maxInt] = 2^63 - 1.  With three
    replicas the first two calls select 1 and 2
    ([round_robin_first_two_calls]). *)
Theorem round_robin_kth_call (m : SqlDB) (rs : list SqlDB) (db0 : DB)
    (cs : list readCall) (c : readCall) :
  New m rs = Success db0 ->
  Forall healthy rs ->
  let k := Z.of_nat (List.length cs) + 1 in
  k <= maxInt ->
  let st := runReads cs (db0, []) in
  nextIndex st = Val (k mod len db0) /\
  snd (runRead c st) = snd st ++ [(Replica (k mod len db0), methodOf c)].
Proof.
  intros HNew Hh k Hk st.
  destruct (New_ok m rs db0 HNew) as (-> & HN).
  assert (Hc0 : minInt <= count (mkDB 0 m rs) <= maxInt)
    by (unfold minInt, maxInt, intBits; simpl; lia).
  pose proof (runReads_db cs (mkDB 0 m rs) [] Hc0) as Edb.
  fold st in Edb. destruct st as [db log]. cbn [fst snd] in *.
  cbn [count] in Edb.
  rewrite Z.add_0_l in Edb.
  rewrite wrapInt_small in Edb
    by (unfold minInt, maxInt, intBits in *; unfold k in Hk; lia).
  assert (Hlen : len db = len (mkDB 0 m rs)) by (rewrite Edb; reflexivity).
  assert (Hcount : count db = k - 1) by (rewrite Edb; unfold k; simpl; lia).
  assert (Hrs : readreplicas db = rs) by (rewrite Edb; reflexivity).
  assert (HN' : 1 <= len db) by (rewrite Hlen; exact HN).
  assert (Hc : 0 <= count db < maxInt) by (rewrite Hcount; unfold k in *; lia).
  rewrite <- Hlen. replace k with (count db + 1) by lia.
  split.
  - unfold nextIndex.
    destruct (selector_in_range db log HN' Hc) as (-> & _). reflexivity.
  - rewrite runRead_healthy; [reflexivity|assumption|assumption|].
    rewrite Hrs. exact Hh.
Qed.

Lemma openDB_healthy (name : string) : healthy (openDB name).
Proof. intro q. split; reflexivity. Qed.

Lemma threeReplicas_healthy : Forall healthy (readreplicas threeReplicas).
Proof. repeat constructor. Qed.

(** The second read call on a fresh router with three replicas. *)
Lemma round_robin_kth_call_witness :
  nextIndex (runReads [RQuery "Query1"] (threeReplicas, [])) = Val 2 /\
  snd (runRead (RPrepare "select 1") (runReads [RQuery "Query1"] (threeReplicas, []))) =
    snd (runReads [RQuery "Query1"] (threeReplicas, [])) ++
    [(Replica 2, MPrepare "select 1")].
Proof.
  assert (H1 : New (openDB "master") [openDB "r1"; openDB "r2"; openDB "r3"]
               = Success threeReplicas) by reflexivity.
  assert (H2 : Z.of_nat (List.length [RQuery "Query1"]) + 1 <= maxInt)
    by (unfold maxInt, intBits; simpl; lia).
  exact (round_robin_kth_call _ _ threeReplicas [RQuery "Query1"]
           (RPrepare "select 1") H1 threeReplicas_healthy H2).
Defined.

(** The scenario of the specification: three replicas, a fresh router, the
    first two read calls go to indices 1 and 2. *)
Example round_robin_first_two_calls :
  snd (runReads [RQuery "Query1"; RQuery "Query1"] (threeReplicas, [])) =
  [(Replica 1, MQuery "Query1"); (Replica 2, MQuery "Query1")].
Proof. reflexivity. Qed.

(** C2, as stated, fails at call number 2^63.  After 2^63 - 1 read calls on
    a fresh router with three healthy replicas the counter is [maxInt]; the
    next [db.count++] wraps to [minInt], the selector returns
    [minInt % 3 = -2] instead of [2^63 mod 3 = 2], and [QueryContext] panics
    on the slice index without asking any replica. *)
Lemma round_robin_kth_call_overflow :
  New (openDB "master") [openDB "r1"; openDB "r2"; openDB "r3"]
    = Success threeReplicas /\
  Forall healthy (readreplicas threeReplicas) /\
  let cs := repeat (RQuery "Query1") (N.to_nat (2 ^ 63 - 1)) in
  let k := Z.of_nat (List.length cs) + 1 in
  let st := runReads cs (threeReplicas, []) in
  k = 2 ^ 63 /\
  k mod len threeReplicas = 2 /\
  nextIndex st = Val (-2) /\
  fst (QueryContext "Query1" st) = Panic "index out of range" /\
  snd (snd (QueryContext "Query1" st)) = snd st.
Proof.
  split; [reflexivity|]. split; [exact threeReplicas_healthy|].
  intros cs k st.
  assert (Hk : k = 2 ^ 63).
  { unfold k, cs. rewrite repeat_length, N_nat_Z. reflexivity. }
  assert (Hc0 : minInt <= count threeReplicas <= maxInt)
    by (unfold minInt, maxInt, intBits; simpl; lia).
  pose proof (runReads_db cs threeReplicas [] Hc0) as Edb.
  fold st in Edb. fold k in Hk.
  replace (Z.of_nat (List.length cs)) with (k - 1) in Edb by (unfold k; lia).
  rewrite Hk in Edb |- *. clearbody st. clear Hk k cs.
  destruct st as [db log]. cbn [fst snd] in *. subst db.
  split; [reflexivity|]. split; [reflexivity|].
  assert (Esel : readReplicaNumberRoundRobin
                   (setCount threeReplicas
                      (wrapInt (count threeReplicas + (2 ^ 63 - 1))), log)
                 = (Val (-2), (setCount threeReplicas minInt, log)))
    by (rewrite selector_eq; reflexivity).
  split; [unfold nextIndex; rewrite Esel; reflexivity|].
  unfold QueryContext. unfold bind at 1. rewrite Esel.
  unfold bind. rewrite onReplica_out_of_range by lia.
  split; reflexivity.
Qed.

(** C9 (as amended).  The selector stays inside the slice while the counter
    has not wrapped.  On a router built by [New], after any number [k] of
    selector calls with [k + 1 <= maxInt] = 2^63 - 1, the next call returns
    (it does not panic on a division by zero) an index [i] with
    [0 <= i < len(readreplicas)], namely [(k + 1) mod len(readreplicas)].
    The counter is a Go [int], not an unbounded number: nothing is said
    about the calls from number 2^63 on. *)
Theorem selector_index_in_range (m : SqlDB) (rs : list SqlDB) (db0 : DB)
    (log : list event) (k : N) :
  New m rs = Success db0 ->
  Z.of_N k < maxInt ->
  exists i,
    nextIndex (afterSelections k (db0, log)) = Val i /\
    i = (Z.of_N k + 1) mod len db0 /\
    0 <= i < len db0.
Proof.
  intros HNew Hk.
  destruct (New_ok m rs db0 HNew) as (-> & HN).
  rewrite afterSelections_eq
    by (unfold minInt, maxInt, intBits; simpl; lia).
  cbn [count]. rewrite Z.add_0_l.
  rewrite wrapInt_small by (unfold minInt, maxInt, intBits in *; lia).
  set (db := setCount (mkDB 0 m rs) (Z.of_N k)).
  assert (HN' : 1 <= len db) by exact HN.
  assert (Hc : 0 <= count db < maxInt) by (simpl; lia).
  destruct (selector_in_range db log HN' Hc) as (Esel & Hs).
  exists ((count db + 1) mod len db). split; [|split].
  - unfold nextIndex. rewrite Esel. reflexivity.
  - reflexivity.
  - exact Hs.
Qed.

(** The fifth selector call on a fresh router with three replicas. *)
Lemma selector_index_in_range_witness :
  exists i,
    nextIndex (afterSelections 4 (threeReplicas, [])) = Val i /\
    i = (Z.of_N 4 + 1) mod len threeReplicas /\
    0 <= i < len threeReplicas.
Proof.
  assert (H1 : New (openDB "master") [openDB "r1"; openDB "r2"; openDB "r3"]
               = Success threeReplicas) by reflexivity.
  assert (H2 : Z.of_N 4 < maxInt) by (unfold maxInt, intBits; simpl; lia).
  exact (selector_index_in_range _ _ threeReplicas [] 4%N H1 H2).
Defined.

(** C9, as stated, fails: not every sequence of selector calls stays in
    range.  On a fresh router with three replicas the call number 2^63
    finds the counter at [maxInt], wraps it to [minInt] and returns
    [minInt % 3 = -2]. *)
Lemma selector_index_overflow :
  New (openDB "master") [openDB "r1"; openDB "r2"; openDB "r3"]
    = Success threeReplicas /\
  nextIndex (afterSelections (2 ^ 63 - 1) (threeReplicas, [])) = Val (-2) /\
  ~ (forall k : N, exists i,
        nextIndex (afterSelections k (threeReplicas, [])) = Val i /\
        0 <= i < len threeReplicas).
Proof.
  assert (E : nextIndex (afterSelections (2 ^ 63 - 1) (threeReplicas, [])) = Val (-2)).
  { rewrite afterSelections_eq
      by (unfold minInt, maxInt, intBits; simpl; lia).
    unfold nextIndex. rewrite selector_eq. reflexivity. }
  split; [reflexivity|]. split; [exact E|].
  intros H. destruct (H (2 ^ 63 - 1)%N) as (i & Ei & Hi).
  rewrite E in Ei. injection Ei as <-. lia.
Qed.

(** ** Ping *)

Lemma ping_in_range (db : DB) (log : list event) (i : Z) :
  0 <= i < len db ->
  exists r,
    ping i (db, log) = (Val r, (db, log ++ [(Replica i, MPing)])) /\
    match err r with Some e => [e] | None => [] end
      = replicaLine (readreplicas db) i.
Proof.
  intros Hi. unfold ping, bind.
  destruct (onReplica_in_range db log i MPing
              (fun h => match h_ping h with
                        | Some cause => Some (replicaPingFailError (i + 1) cause)
                        | None => None
                        end) Hi) as (h & Eh & ->).
  eexists. split; [reflexivity|].
  unfold replicaLine. rewrite Eh. simpl. destruct (h_ping h); reflexivity.
Qed.

Lemma fanOut_spec (db : DB) (order : list Z) :
  Forall (fun i => 0 <= i < len db) order ->
  forall log, exists ch,
    fanOut order (db, log) =
      (Val ch, (db, log ++ map (fun i => (Replica i, MPing)) order)) /\
    List.length ch = List.length order /\
    flat_map (fun r => match err r with Some e => [e] | None => [] end) ch
      = flat_map (replicaLine (readreplicas db)) order.
Proof.
  induction 1 as [|i order Hi Hall IH]; intros log.
  - exists []. simpl. unfold ret. rewrite app_nil_r. repeat split.
  - destruct (ping_in_range db log i Hi) as (r & Er & Eline).
    destruct (IH (log ++ [(Replica i, MPing)])) as (ch & Ech & Elen & Elines).
    exists (r :: ch). simpl. unfold bind. rewrite Er, Ech. unfold ret.
    rewrite <- app_assoc. repeat split.
    + simpl. rewrite Elen. reflexivity.
    + rewrite Eline, Elines. reflexivity.
Qed.

(** The collecting loop, when the channel holds as many responses as the
    loop receives: it returns, with the lines it was given followed by the
    lines of the responses, in order. *)
Lemma collect_spec (n : nat) (ch : list pingChanResponse) (es : list string)
    (st : state) :
  List.length ch = n ->
  PingContext_collect n ch es st =
  (Val (joined (es ++ flat_map
                        (fun r => match err r with Some e => [e] | None => [] end)
                        ch)), st).
Proof.
  revert ch es. induction n as [|n IH]; intros ch es Hlen.
  - destruct ch; [|discriminate]. simpl. rewrite app_nil_r.
    destruct es; reflexivity.
  - destruct ch as [|r ch]; [discriminate|]. simpl.
    injection Hlen as Hlen.
    destruct (err r) as [e|].
    + rewrite IH by exact Hlen. simpl. rewrite <- app_assoc. reflexivity.
    + apply IH. exact Hlen.
Qed.

Lemma indices_in_range (db : DB) (i : Z) : In i (indices db) -> 0 <= i < len db.
Proof.
  unfold indices, len. intros H. apply in_map_iff in H.
  destruct H as (k & <- & Hk). apply in_seq in Hk. lia.
Qed.

Lemma schedule_in_range (db : DB) (order : list Z) :
  schedule db order -> Forall (fun i => 0 <= i < len db) order.
Proof.
  intros Hp. apply Forall_forall. intros i Hi.
  apply indices_in_range. eapply Permutation_in; eassumption.
Qed.

Lemma schedule_length (db : DB) (order : list Z) :
  schedule db order -> List.length order = List.length (readreplicas db).
Proof.
  intros Hp. rewrite (Permutation_length Hp).
  unfold indices. rewrite length_map. apply length_seq.
Qed.

(** [PingContext] under any schedule: it returns; the error is the join of
    the failure lines, master first, or nil when there is none. *)
Lemma PingContext_spec (db : DB) (log : list event) (order : list Z) :
  schedule db order ->
  PingContext order (db, log) =
  (Val (joined (failureLines db order)),
   (db, log ++ (Master, MPing) :: map (fun i => (Replica i, MPing)) order)).
Proof.
  intros Hs.
  destruct (fanOut_spec db order (schedule_in_range db order Hs)
              (log ++ [(Master, MPing)])) as (ch & Ech & Elen & Elines).
  unfold PingContext, onMaster, bind, getDB, call, ret. simpl.
  unfold state in *. rewrite Ech. simpl.
  rewrite collect_spec by (rewrite Elen; apply schedule_length; exact Hs).
  rewrite Elines. rewrite <- app_assoc. simpl.
  unfold failureLines, masterLine. destruct (h_ping (master db)); reflexivity.
Qed.

Lemma flat_map_length_perm {X Y} (f : X -> list Y) (l l' : list X) :
  Permutation l l' ->
  List.length (flat_map f l) = List.length (flat_map f l').
Proof.
  induction 1; simpl; rewrite ?length_app; lia.
Qed.

Lemma replicaLines_count (pre rs : list SqlDB) :
  List.length
    (flat_map (replicaLine (pre ++ rs))
       (map Z.of_nat (seq (List.length pre) (List.length rs))))
  = List.length (filter pingFails rs).
Proof.
  revert pre. induction rs as [|h rs IH]; intros pre; [reflexivity|].
  simpl. rewrite length_app.
  replace (pre ++ h :: rs) with ((pre ++ [h]) ++ rs)
    by (rewrite <- app_assoc; reflexivity).
  specialize (IH (pre ++ [h])). rewrite length_app in IH. simpl in IH.
  rewrite Nat.add_1_r in IH. rewrite IH.
  unfold replicaLine at 1. rewrite Nat2Z.id.
  rewrite <- app_assoc. simpl.
  rewrite nth_error_app2, Nat.sub_diag by lia. simpl.
  unfold pingFails. destruct (h_ping h); reflexivity.
Qed.

Lemma failureLines_count (db : DB) (order : list Z) :
  schedule db order ->
  List.length (failureLines db order) = failedTargets db.
Proof.
  intros Hs. unfold failureLines, failedTargets. rewrite length_app.
  rewrite (flat_map_length_perm _ _ _ Hs).
  pose proof (replicaLines_count [] (readreplicas db)) as E. simpl in E.
  unfold indices. rewrite E.
  unfold masterLine, pingFails. destruct (h_ping (master db)); reflexivity.
Qed.

(** C3.  [PingContext] with failures.  Under any schedule of the ping
    goroutines, if the master or a replica fails its ping, [PingContext]
    returns one error whose text is the failure lines joined by line feeds:
    the line of the master first when the master failed, then the lines of
    the failed replicas in the order in which their responses were
    collected.  A replica has a line exactly when its ping failed (with its
    1-based ordinal and the cause), so there are as many lines as failed
    targets. *)
Theorem PingContext_joins_failures (db : DB) (log : list event) (order : list Z) :
  schedule db order ->
  (0 < failedTargets db)%nat ->
  let lines := failureLines db order in
  fst (PingContext order (db, log)) = Val (Some (String.concat nl lines)) /\
  lines = masterLine db ++ flat_map (replicaLine (readreplicas db)) order /\
  masterLine db =
    match h_ping (master db) with
    | Some cause => [masterPingFailError cause]
    | None => []
    end /\
  (forall i h, nth_error (readreplicas db) (Z.to_nat i) = Some h ->
     replicaLine (readreplicas db) i =
       match h_ping h with
       | Some cause => [replicaPingFailError (i + 1) cause]
       | None => []
       end) /\
  List.length lines = failedTargets db.
Proof.
  intros Hs Hfail lines.
  pose proof (failureLines_count db order Hs) as Hcount. fold lines in Hcount.
  repeat match goal with |- _ /\ _ => split end.
  - rewrite PingContext_spec by exact Hs. fold lines. simpl.
    destruct lines; [simpl in Hcount; lia|reflexivity].
  - reflexivity.
  - reflexivity.
  - intros i h Eh. unfold replicaLine. rewrite Eh. reflexivity.
  - exact Hcount.
Qed.

Lemma PingContext_joins_failures_witness :
  fst (PingContext [1; 0] (pingScenario, [])) =
    Val (Some (String.concat nl (failureLines pingScenario [1; 0]))) /\
  List.length (failureLines pingScenario [1; 0]) = failedTargets pingScenario.
Proof.
  assert (H1 : schedule pingScenario [1; 0])
    by (unfold schedule, indices; simpl; apply perm_swap).
  assert (H2 : (0 < failedTargets pingScenario)%nat)
    by (unfold failedTargets; simpl; lia).
  pose proof (PingContext_joins_failures pingScenario [] [1; 0] H1 H2) as H.
  exact (conj (proj1 H) (proj2 (proj2 (proj2 (proj2 H))))).
Defined.

(** The message [TestDB_Ping] expects. *)
Example PingContext_test_message :
  fst (PingContext [1; 0] (pingScenario, [])) =
  Val (Some ("master's db ping fail: sql: database is closed" +++ nl +++
             "replica db 1 ping fail: sql: database is closed")).
Proof. reflexivity. Qed.

(** The replica lines follow the order of collection, not the ordinals. *)
Example PingContext_collection_order :
  fst (PingContext [1; 0] (mkDB 0 (openDB "master") [closedDB; closedDB], [])) =
  Val (Some ("replica db 2 ping fail: sql: database is closed" +++ nl +++
             "replica db 1 ping fail: sql: database is closed")).
Proof. reflexivity. Qed.

(** C4.  [PingContext] and [Ping] return nil when the ping of the master and
    the ping of every replica succeed, under any schedule. *)
Theorem PingContext_all_healthy (db : DB) (log : list event) (order : list Z) :
  schedule db order ->
  h_ping (master db) = None ->
  Forall (fun h => h_ping h = None) (readreplicas db) ->
  fst (PingContext order (db, log)) = Val None /\
  fst (Ping order (db, log)) = Val None.
Proof.
  intros Hs Hm Hr.
  assert (E : fst (PingContext order (db, log)) = Val None).
  { rewrite PingContext_spec by exact Hs. simpl.
    pose proof (failureLines_count db order Hs) as Hcount.
    assert (Hzero : failedTargets db = 0%nat).
    { unfold failedTargets, pingFails. rewrite Hm. simpl.
      induction Hr as [|h rs Hh Hr IH]; [reflexivity|].
      simpl. rewrite Hh. simpl. exact IH. }
    rewrite Hzero in Hcount.
    destruct (failureLines db order); [reflexivity|discriminate]. }
  split; exact E.
Qed.

Lemma PingContext_all_healthy_witness :
  fst (PingContext [2; 0; 1] (threeReplicas, [])) = Val None /\
  fst (Ping [2; 0; 1] (threeReplicas, [])) = Val None.
Proof.
  assert (H1 : schedule threeReplicas [2; 0; 1]).
  { unfold schedule, indices. simpl.
    apply Permutation_sym.
    apply (Permutation_cons_app [2] [1] 0).
    apply perm_swap. }
  assert (H2 : h_ping (master threeReplicas) = None) by reflexivity.
  assert (H3 : Forall (fun h => h_ping h = None) (readreplicas threeReplicas))
    by (repeat constructor).
  exact (PingContext_all_healthy threeReplicas [] [2; 0; 1] H1 H2 H3).
Defined.

(** ** Close *)

Lemma last_cons_default {X} (x : X) (l : list X) (d d' : X) :
  last (x :: l) d = last (x :: l) d'.
Proof.
  revert x. induction l as [|y l IH]; intros x; [reflexivity|].
  change (last (y :: l) d = last (y :: l) d'). apply IH.
Qed.

Lemma Close_loop_spec (rs : list SqlDB) (i : nat) (e : error) (db : DB)
    (log : list event) :
  Close_loop rs (Z.of_nat i) e (db, log) =
  (Val (last (map h_close rs) e),
   (db, log ++ map (fun j => (Replica j, MClose))
                   (map Z.of_nat (seq i (List.length rs))))).
Proof.
  revert i e log. induction rs as [|h rs IH]; intros i e log.
  - simpl. unfold ret. rewrite app_nil_r. reflexivity.
  - cbn [Close_loop]. unfold bind, call. cbn [fst snd].
    replace (Z.of_nat i + 1) with (Z.of_nat (S i)) by lia.
    rewrite IH. rewrite <- app_assoc. simpl.
    destruct (map h_close rs) as [|e0 l]; [reflexivity|].
    rewrite (last_cons_default e0 l (h_close h) e). reflexivity.
Qed.

(** [Close] closes the master, then every replica in slice order, whatever
    the closes return, and returns what the last replica returned; the
    error of the master is returned only when there is no replica. *)
Lemma Close_spec (db : DB) (log : list event) :
  Close (db, log) =
  (Val (last (map h_close (readreplicas db)) (h_close (master db))),
   (db, log ++ sweep db MClose)).
Proof.
  unfold Close, onMaster, bind, getDB, call, ret. cbn [fst snd].
  rewrite (Close_loop_spec (readreplicas db) 0).
  rewrite <- app_assoc. reflexivity.
Qed.

Lemma Close_all_succeed (db : DB) (log : list event) :
  h_close (master db) = None ->
  Forall (fun h => h_close h = None) (readreplicas db) ->
  fst (Close (db, log)) = Val None.
Proof.
  intros Hm Hr. rewrite Close_spec. simpl. f_equal. rewrite Hm.
  induction Hr as [|h rs Hh Hr IH]; [reflexivity|].
  simpl. destruct (map h_close rs) eqn:E; [exact Hh|exact IH].
Qed.

(** C5, where the code departs from it.  [Close] asks the master and then
    every replica, in order, and goes on after a failure; but its result is
    the result of the last replica, not the last failure.  When the close of
    the master fails and the close of the only replica succeeds, and when
    the first of two replicas fails and the second succeeds, a close has
    failed and [Close] returns nil. *)
Theorem Close_returns_nil_after_failure :
  (h_close (master masterCloseFails) = Some "close: connection reset" /\
   Close (masterCloseFails, []) =
     (Val None, (masterCloseFails, [(Master, MClose); (Replica 0, MClose)]))) /\
  (answerAt replicaCloseFails (fun h => match h_close h with
                                        | Some e => Failure e
                                        | None => Success tt
                                        end) 0
     = Failure "close: connection reset" /\
   Close (replicaCloseFails, []) =
     (Val None,
      (replicaCloseFails,
       [(Master, MClose); (Replica 0, MClose); (Replica 1, MClose)]))).
Proof. repeat split. Qed.

(** ** Prepare *)

(** The classification on ASCII texts, for any Unicode slow paths: white
    space around the text and the case of the letters do not matter, only
    the prefix does, and a read that starts with another keyword goes to
    the master. *)
Example classification_examples (U : Unicode) :
  HasPrefix (ToLower U (TrimSpace U "Select1")) "select" = true /\
  HasPrefix (ToLower U (TrimSpace U "  SeLeCt * FROM t  ")) "select" = true /\
  HasPrefix (ToLower U (TrimSpace U ("" +++ nl +++ "select 1"))) "select" = true /\
  HasPrefix (ToLower U (TrimSpace U "selection")) "select" = true /\
  HasPrefix (ToLower U (TrimSpace U "Insert")) "select" = false /\
  HasPrefix (ToLower U (TrimSpace U "WITH x AS (SELECT 1) SELECT * FROM x")) "select"
    = false /\
  HasPrefix (ToLower U (TrimSpace U "   ")) "select" = false /\
  HasPrefix (ToLower U (TrimSpace U "sel ect")) "select" = false.
Proof. repeat split. Qed.

(** [TestDB_Prepare]: on a fresh router with two replicas "Select1" is
    prepared on the second replica and "Insert" on the master. *)
Example PrepareContext_test (U : Unicode) :
  let db := mkDB 0 (openDB "master") [openDB "r1"; openDB "r2"] in
  PrepareContext U "Select1" (db, []) =
    (Val (Success (mkStmt "r2" "Select1")),
     (setCount db 1, [(Replica 1, MPrepare "Select1")])) /\
  PrepareContext U "Insert" (db, []) =
    (Val (Success (mkStmt "master" "Insert")), (db, [(Master, MPrepare "Insert")])).
Proof. split; reflexivity. Qed.

(** ** New *)

(** C7.  [New] looks at the number of replicas and at nothing else: with no
    replica it returns the error "Provide at least one read replica", and
    with one or more it returns a router that holds the master and the
    replicas as they were given, with the counter at zero, whatever the
    handles are. *)
Theorem New_checks_replica_count_only (m : SqlDB) (rs : list SqlDB) :
  New m rs =
    match rs with
    | [] => Failure noReadReplicaError
    | _ :: _ => Success (mkDB 0 m rs)
    end /\
  (New m rs = Failure noReadReplicaError <-> rs = []) /\
  ((exists db, New m rs = Success db) <-> (1 <= List.length rs)%nat).
Proof.
  destruct rs as [|h rs].
  - split; [reflexivity|]. split; split.
    + reflexivity.
    + reflexivity.
    + intros (db & H). discriminate H.
    + simpl. lia.
  - assert (E : New m (h :: rs) = Success (mkDB 0 m (h :: rs))) by reflexivity.
    split; [exact E|]. rewrite E. split; split.
    + discriminate.
    + discriminate.
    + simpl. lia.
    + intros _. eexists. reflexivity.
Qed.

(** A closed master, a closed replica: [New] accepts them. *)
Example New_accepts_closed_handles :
  New closedDB [closedDB] = Success (mkDB 0 closedDB [closedDB]).
Proof. reflexivity. Qed.

(** [TestDB_New]. *)
Example New_test :
  isSuccess (New (openDB "master") [openDB "r1"]) = true /\
  New (openDB "master") [] = Failure noReadReplicaError.
Proof. split; reflexivity. Qed.


(** * Further properties *)

(** ** Close and pool tuning, handle by handle *)

Lemma indices_NoDup (db : DB) : NoDup (indices db).
Proof.
  unfold indices. apply NoDup_map_on; [|apply seq_NoDup].
  intros x y _ _ E. lia.
Qed.

Lemma sweep_NoDup (db : DB) (m : method) : NoDup (sweep db m).
Proof.
  unfold sweep. constructor.
  - intros Hin. apply in_map_iff in Hin. destruct Hin as (i & E & _). discriminate.
  - apply NoDup_map_on; [|apply indices_NoDup].
    intros x y _ _ E. injection E as E. exact E.
Qed.

Lemma sweep_length (db : DB) (m : method) :
  Z.of_nat (List.length (sweep db m)) = len db + 1.
Proof.
  unfold sweep, indices, len. simpl. rewrite !length_map, length_seq. lia.
Qed.

Lemma last_map_default {X Y} (f : X -> Y) (l : list X) (d : X) :
  last (map f l) (f d) = f (last l d).
Proof.
  induction l as [|x l IH]; [reflexivity|].
  simpl. destruct l; [reflexivity|exact IH].
Qed.

(** X1.  [Close] in full.  From every state [Close] returns; it has called
    [Close] on the master and then on every replica in slice order, each
    handle once, whatever the earlier closes returned; the router is left as
    it was; and the error it returns is the one of the last handle closed:
    the last replica, or the master when the router has no replica. *)
Theorem Close_closes_every_handle_once (db : DB) (log : list event) :
  Close (db, log) =
    (Val (h_close (last (readreplicas db) (master db))),
     (db, log ++ sweep db MClose)) /\
  sweep db MClose = (Master, MClose) :: map (fun i => (Replica i, MClose)) (indices db) /\
  NoDup (sweep db MClose) /\
  Z.of_nat (List.length (sweep db MClose)) = len db + 1.
Proof.
  split; [|split; [reflexivity|split; [apply sweep_NoDup|apply sweep_length]]].
  rewrite Close_spec. rewrite last_map_default. reflexivity.
Qed.

(** X2.  With at least one replica, as in every router built by [New], the
    result of [Close] is the result of closing the last replica of the slice
    and does not depend on the master: the error of the master's [Close] is
    lost, and so is the error of every replica but the last. *)
Theorem Close_ignores_master_result (db : DB) (log : list event) (m' : SqlDB) :
  readreplicas db <> [] ->
  exists front h,
    readreplicas db = front ++ [h] /\
    fst (Close (db, log)) = Val (h_close h) /\
    fst (Close (mkDB (count db) m' (readreplicas db), log)) = Val (h_close h).
Proof.
  intros Hne.
  destruct (exists_last Hne) as (front & h & E).
  exists front, h. split; [exact E|].
  assert (Hlast : forall d, last (readreplicas db) d = h)
    by (intros d; rewrite E; apply last_last).
  split.
  - rewrite Close_spec, last_map_default, Hlast. reflexivity.
  - rewrite Close_spec, last_map_default. simpl. rewrite Hlast. reflexivity.
Qed.

Lemma Close_ignores_master_result_witness :
  exists front h,
    readreplicas replicaCloseFails = front ++ [h] /\
    fst (Close (replicaCloseFails, [])) = Val (h_close h) /\
    fst (Close (mkDB (count replicaCloseFails) badCloseDB
                  (readreplicas replicaCloseFails), [])) = Val (h_close h).
Proof.
  assert (H : readreplicas replicaCloseFails <> []) by (simpl; discriminate).
  exact (Close_ignores_master_result replicaCloseFails [] badCloseDB H).
Defined.

(** X3.  When the [Close] of the master and of every replica succeeds,
    [Close] returns nil. *)
Theorem Close_nil_when_every_close_succeeds (db : DB) (log : list event) :
  h_close (master db) = None ->
  Forall (fun h => h_close h = None) (readreplicas db) ->
  Close (db, log) = (Val None, (db, log ++ sweep db MClose)).
Proof.
  intros Hm Hr. rewrite Close_spec. f_equal. f_equal. rewrite Hm.
  induction Hr as [|h rs Hh Hr IH]; [reflexivity|].
  simpl. destruct (map h_close rs) eqn:E; [exact Hh|exact IH].
Qed.

Lemma Close_nil_when_every_close_succeeds_witness :
  Close (threeReplicas, []) = (Val None, (threeReplicas, sweep threeReplicas MClose)).
Proof.
  assert (H1 : h_close (master threeReplicas) = None) by reflexivity.
  assert (H2 : Forall (fun h => h_close h = None) (readreplicas threeReplicas))
    by (repeat constructor).
  exact (Close_nil_when_every_close_succeeds threeReplicas [] H1 H2).
Defined.

Lemma tune_loop_spec (rs : list SqlDB) (i : nat) (m : method) (db : DB)
    (log : list event) :
  tune_loop rs (Z.of_nat i) m (db, log) =
  (Val tt, (db, log ++ map (fun j => (Replica j, m))
                         (map Z.of_nat (seq i (List.length rs))))).
Proof.
  revert i log. induction rs as [|h rs IH]; intros i log.
  - simpl. unfold ret. rewrite app_nil_r. reflexivity.
  - cbn [tune_loop]. unfold bind, call. cbn [fst snd].
    replace (Z.of_nat i + 1) with (Z.of_nat (S i)) by lia.
    rewrite IH. rewrite <- app_assoc. reflexivity.
Qed.

Lemma tune_spec (m : method) (db : DB) (log : list event) :
  tune m (db, log) = (Val tt, (db, log ++ sweep db m)).
Proof.
  unfold tune, bind, getDB, call. cbn [fst snd].
  rewrite (tune_loop_spec (readreplicas db) 0).
  rewrite <- app_assoc. reflexivity.
Qed.

(** X4.  Pool tuning.  [SetConnMaxLifetime], [SetMaxIdleConns] and
    [SetMaxOpenConns] return from every state, leave the router as it was and
    pass the value they were given, unchanged, to the master first and then
    to every replica in slice order, each handle once. *)
Theorem tuning_reaches_every_handle_once (db : DB) (log : list event) (d n : Z) :
  SetConnMaxLifetime d (db, log) =
    (Val tt, (db, log ++ sweep db (MSetConnMaxLifetime d))) /\
  SetMaxIdleConns n (db, log) =
    (Val tt, (db, log ++ sweep db (MSetMaxIdleConns n))) /\
  SetMaxOpenConns n (db, log) =
    (Val tt, (db, log ++ sweep db (MSetMaxOpenConns n))) /\
  (forall m, NoDup (sweep db m) /\
             Z.of_nat (List.length (sweep db m)) = len db + 1 /\
             hd_error (sweep db m) = Some (Master, m)).
Proof.
  repeat match goal with |- _ /\ _ => split end; try apply tune_spec.
  intros m. split; [apply sweep_NoDup|]. split; [apply sweep_length|reflexivity].
Qed.

(** ** Reads: which handles, which outcomes *)

Lemma asksReplicas_quiet {A} (m : method) (c : M A) :
  (forall st, snd (c st) = st) -> asksReplicas m c.
Proof.
  intros H db log. rewrite H. split; [reflexivity|].
  exists []. simpl. rewrite app_nil_r. split; [reflexivity|constructor].
Qed.

Lemma asksReplicas_bind {A B} (m : method) (c : M A) (f : A -> M B) :
  asksReplicas m c -> (forall a, asksReplicas m (f a)) ->
  asksReplicas m (bind c f).
Proof.
  intros Hc Hf db log. unfold bind.
  destruct (Hc db log) as (Hrs & tried & Elog & Hin).
  destruct (c (db, log)) as [[a|msg|] [db1 log1]]; cbn [fst snd] in *.
  - destruct (Hf a db1 log1) as (Hrs2 & tried2 & Elog2 & Hin2).
    split; [congruence|].
    exists (tried ++ tried2). split.
    + rewrite Elog2, Elog. unfold attempts. rewrite map_app, app_assoc. reflexivity.
    + apply Forall_app. split; [exact Hin|].
      unfold len in *. rewrite Hrs in Hin2. exact Hin2.
  - split; [exact Hrs|]. exists tried. split; assumption.
  - split; [exact Hrs|]. exists tried. split; assumption.
Qed.

Lemma asksReplicas_onReplica {A} (m : method) (i : Z) (op : SqlDB -> A) :
  asksReplicas m (onReplica i m op).
Proof.
  intros db log. unfold onReplica, replicaAt, bind, getDB, call, ret, panic.
  cbn [fst snd].
  destruct ((0 <=? i) && (i <? len db)) eqn:Hi.
  - apply andb_true_iff in Hi. destruct Hi as (H0 & H1).
    apply Z.leb_le in H0. apply Z.ltb_lt in H1.
    destruct (nth_error (readreplicas db) (Z.to_nat i)); cbn [fst snd].
    + split; [reflexivity|]. exists [i]. split; [reflexivity|].
      constructor; [lia|constructor].
    + split; [reflexivity|]. exists []. simpl. rewrite app_nil_r.
      split; [reflexivity|constructor].
  - split; [reflexivity|]. exists []. simpl. rewrite app_nil_r.
    split; [reflexivity|constructor].
Qed.

Lemma asksReplicas_selector (m : method) : asksReplicas m readReplicaNumberRoundRobin.
Proof.
  intros db log. rewrite selector_eq. cbn [fst snd].
  split; [reflexivity|]. exists []. simpl. rewrite app_nil_r.
  split; [reflexivity|constructor].
Qed.

Lemma asksReplicas_walk_loop {A} (fuel : nat) (m : method) (op : SqlDB -> Result A)
    (r i : Z) : asksReplicas m (walk_loop fuel m op r i).
Proof.
  revert i. induction fuel as [|fuel IH]; intros i; simpl.
  - apply asksReplicas_quiet. reflexivity.
  - apply asksReplicas_bind; [apply asksReplicas_quiet; reflexivity|].
    intros db. destruct (goRem i (len db) =? r).
    + apply asksReplicas_quiet. reflexivity.
    + apply asksReplicas_bind; [apply asksReplicas_onReplica|].
      intros [a|e]; [apply asksReplicas_quiet; reflexivity|apply IH].
Qed.

Lemma asksReplicas_walk {A} (m : method) (op : SqlDB -> Result A) :
  asksReplicas m (walk m op).
Proof.
  unfold walk.
  apply asksReplicas_bind; [apply asksReplicas_selector|]. intros s.
  apply asksReplicas_bind; [apply asksReplicas_onReplica|].
  intros [a|e]; [apply asksReplicas_quiet; reflexivity|].
  apply asksReplicas_bind; [apply asksReplicas_quiet; reflexivity|].
  intros db. apply asksReplicas_walk_loop.
Qed.

(** X5.  Reads stay on the replicas.  From every state, whatever the counter
    and the health of the handles, and whether the call returns or panics,
    [QueryContext], [QueryRowContext] and [prepare] call the master never:
    all they add to the log are calls of their own method, with the text
    they were given, on replicas whose index is inside the slice.  There is
    no fallback to the master when every replica is down. *)
Theorem reads_never_reach_master (db : DB) (log : list event) (q : string) :
  (exists tried,
      snd (snd (QueryContext q (db, log))) = log ++ attempts (MQuery q) tried /\
      Forall (fun i => 0 <= i < len db) tried) /\
  (exists tried,
      snd (snd (QueryRowContext q (db, log))) = log ++ attempts (MQueryRow q) tried /\
      Forall (fun i => 0 <= i < len db) tried) /\
  (exists tried,
      snd (snd (prepare q (db, log))) = log ++ attempts (MPrepare q) tried /\
      Forall (fun i => 0 <= i < len db) tried).
Proof.
  split; [|split].
  - rewrite QueryContext_walk. apply asksReplicas_walk.
  - assert (H : asksReplicas (MQueryRow q) (QueryRowContext q)).
    { unfold QueryRowContext.
      apply asksReplicas_bind; [apply asksReplicas_selector|].
      intros s. apply asksReplicas_onReplica. }
    apply H.
  - rewrite prepare_walk. apply asksReplicas_walk.
Qed.

Lemma rotation_Permutation (db : DB) (s : Z) :
  0 <= s < len db -> Permutation (rotation s (len db)) (indices db).
Proof.
  intros Hs. apply NoDup_Permutation_bis.
  - apply rotation_NoDup. exact Hs.
  - rewrite rotation_length. unfold indices, len.
    rewrite length_map, length_seq. lia.
  - intros i Hi. apply rotation_in_range in Hi; [|lia].
    unfold indices. apply in_map_iff. exists (Z.to_nat i).
    split; [lia|]. apply in_seq. unfold len in Hi. lia.
Qed.

Lemma tryInOrder_success_iff {A} (attempt : Z -> Result A) (l : list Z) :
  isSuccess (snd (tryInOrder attempt l)) = true <->
  Exists (fun i => isSuccess (attempt i) = true) l.
Proof.
  induction l as [|i l IH]; simpl.
  - split; [discriminate|]. intros H. inversion H.
  - destruct (attempt i) as [a|e] eqn:Ei; simpl.
    + split; [|reflexivity]. intros _. left. rewrite Ei. reflexivity.
    + destruct (tryInOrder attempt l) as [tried r]. simpl in *.
      rewrite IH. split.
      * intros H. right. exact H.
      * intros H. inversion H as [? ? Hi|? ? Hl]; subst; [|exact Hl].
        rewrite Ei in Hi. discriminate.
Qed.

Lemma tryInOrder_result {A} (attempt : Z -> Result A) (l : list Z) :
  (exists i a, In i l /\ attempt i = Success a /\
               snd (tryInOrder attempt l) = Success a) \/
  snd (tryInOrder attempt l) = Failure noReplicaAvailableError.
Proof.
  induction l as [|i l IH]; simpl.
  - right. reflexivity.
  - destruct (attempt i) as [a|e] eqn:Ei; simpl.
    + left. exists i, a. auto.
    + destruct (tryInOrder attempt l) as [tried r]. simpl in *.
      destruct IH as [(j & a & Hj & Ej & Er)|Er]; [|right; exact Er].
      left. exists j, a. auto.
Qed.

Lemma tryInOrder_all_fail {A} (attempt : Z -> Result A) (l : list Z) :
  Forall (fun i => isSuccess (attempt i) = false) l ->
  tryInOrder attempt l = (l, Failure noReplicaAvailableError).
Proof.
  induction 1 as [|i l Hi Hl IH]; simpl; [reflexivity|].
  destruct (attempt i); [discriminate|]. rewrite IH. reflexivity.
Qed.

Lemma answerAt_indices {A} (db : DB) (op : SqlDB -> Result A) (P : Result A -> Prop) :
  Exists (fun i => P (answerAt db op i)) (indices db) <->
  Exists (fun h => P (op h)) (readreplicas db).
Proof.
  rewrite !Exists_exists. split.
  - intros (i & Hi & HP). apply indices_in_range in Hi.
    unfold answerAt in HP.
    destruct (nth_error (readreplicas db) (Z.to_nat i)) as [h|] eqn:E.
    + exists h. split; [eapply nth_error_In; exact E|exact HP].
    + apply nth_error_None in E. unfold len in Hi. lia.
  - intros (h & Hh & HP). apply In_nth_error in Hh. destruct Hh as (n & En).
    exists (Z.of_nat n). split.
    + unfold indices. apply in_map. apply in_seq.
      assert (n < List.length (readreplicas db))%nat
        by (apply nth_error_Some; congruence). lia.
    + unfold answerAt. rewrite Nat2Z.id, En. exact HP.
Qed.

(** The outcome of the shared body in terms of the replicas: it succeeds
    exactly when some replica answers, with the answer of a replica; and
    its only error is [NoReplicaAvailable]. *)
Lemma walk_availability {A} (m : method) (op : SqlDB -> Result A) (db : DB)
    (log : list event) :
  1 <= len db <= maxReplicas -> 0 <= count db < maxInt ->
  exists r,
    fst (walk m op (db, log)) = Val r /\
    (isSuccess r = true <->
     Exists (fun h => isSuccess (op h) = true) (readreplicas db)) /\
    (isSuccess r = false -> r = Failure noReplicaAvailableError) /\
    (forall a, r = Success a -> exists h, In h (readreplicas db) /\ op h = Success a).
Proof.
  intros HN Hc.
  pose proof (walk_spec m op db log HN Hc) as E. cbv zeta in E.
  set (s := (count db + 1) mod len db) in *.
  assert (Hs : 0 <= s < len db) by (apply Z.mod_pos_bound; lia).
  set (T := tryInOrder (answerAt db op) (rotation s (len db))) in *.
  exists (snd T). split; [rewrite E; reflexivity|]. split; [|split].
  - unfold T. rewrite tryInOrder_success_iff.
    rewrite <- (answerAt_indices db op (fun r => isSuccess r = true)).
    split; intros H; eapply Permutation_Exists; try exact H.
    + apply rotation_Permutation. exact Hs.
    + apply Permutation_sym, rotation_Permutation. exact Hs.
  - destruct (tryInOrder_result (answerAt db op) (rotation s (len db)))
      as [(i & a & _ & _ & Er)|Er]; fold T in Er; rewrite Er.
    + discriminate.
    + reflexivity.
  - intros a Ea.
    destruct (tryInOrder_result (answerAt db op) (rotation s (len db)))
      as [(i & a' & Hi & Ei & Er)|Er]; fold T in Er; rewrite Er in Ea;
      [|discriminate].
    injection Ea as <-. unfold answerAt in Ei.
    destruct (nth_error (readreplicas db) (Z.to_nat i)) as [h|] eqn:Eh;
      [|discriminate].
    exists h. split; [eapply nth_error_In; exact Eh|exact Ei].
Qed.

(** X6.  A read fails only when every replica fails.  For a router with
    1 to 2^62 replicas and a counter in [0, maxInt), [QueryContext] (and
    likewise [prepare]) returns rows exactly when at least one replica
    answers the query, and the rows are those of a replica; when it returns
    an error, the error is "No replica is alive for reading data" and none
    of the errors of the replicas. *)
Theorem read_succeeds_iff_some_replica_answers (db : DB) (log : list event)
    (q : string) :
  1 <= len db <= maxReplicas ->
  0 <= count db < maxInt ->
  (exists r,
      fst (QueryContext q (db, log)) = Val r /\
      (isSuccess r = true <->
       Exists (fun h => isSuccess (h_query h q) = true) (readreplicas db)) /\
      (isSuccess r = false -> r = Failure noReplicaAvailableError) /\
      (forall rows, r = Success rows ->
         exists h, In h (readreplicas db) /\ h_query h q = Success rows)) /\
  (exists r,
      fst (prepare q (db, log)) = Val r /\
      (isSuccess r = true <->
       Exists (fun h => isSuccess (h_prepare h q) = true) (readreplicas db)) /\
      (isSuccess r = false -> r = Failure noReplicaAvailableError) /\
      (forall stmt, r = Success stmt ->
         exists h, In h (readreplicas db) /\ h_prepare h q = Success stmt)).
Proof.
  intros HN Hc. split.
  - rewrite QueryContext_walk. apply walk_availability; assumption.
  - rewrite prepare_walk. apply walk_availability; assumption.
Qed.

Lemma read_succeeds_iff_some_replica_answers_witness :
  exists r,
    fst (QueryContext "Query1" (twoDown, [])) = Val r /\
    (isSuccess r = true <->
     Exists (fun h => isSuccess (h_query h "Query1") = true) (readreplicas twoDown)) /\
    (isSuccess r = false -> r = Failure noReplicaAvailableError) /\
    (forall rows, r = Success rows ->
       exists h, In h (readreplicas twoDown) /\ h_query h "Query1" = Success rows).
Proof.
  assert (H1 : 1 <= len twoDown <= maxReplicas)
    by (unfold len, maxReplicas, intBits; simpl; lia).
  assert (H2 : 0 <= count twoDown < maxInt)
    by (unfold maxInt, intBits; simpl; lia).
  exact (proj1 (read_succeeds_iff_some_replica_answers twoDown [] "Query1" H1 H2)).
Defined.

(** X7.  When every replica fails the query, [QueryContext] has asked every
    replica exactly once before it gives up: the replicas it asked are the
    rotation from the selected index, a permutation of all the indices of
    the slice; it returns the [NoReplicaAvailable] error and has counted
    once.  The same holds for [prepare]. *)
Theorem read_asks_every_replica_once_when_all_fail (db : DB) (log : list event)
    (q : string) :
  1 <= len db <= maxReplicas ->
  0 <= count db < maxInt ->
  let s := (count db + 1) mod len db in
  Permutation (rotation s (len db)) (indices db) /\
  (Forall (fun h => isSuccess (h_query h q) = false) (readreplicas db) ->
   QueryContext q (db, log) =
     (Val (Failure noReplicaAvailableError),
      (setCount db (count db + 1),
       log ++ attempts (MQuery q) (rotation s (len db))))) /\
  (Forall (fun h => isSuccess (h_prepare h q) = false) (readreplicas db) ->
   prepare q (db, log) =
     (Val (Failure noReplicaAvailableError),
      (setCount db (count db + 1),
       log ++ attempts (MPrepare q) (rotation s (len db))))).
Proof.
  intros HN Hc s.
  assert (Hs : 0 <= s < len db) by (apply Z.mod_pos_bound; lia).
  assert (Hall : forall A (op : SqlDB -> Result A),
             Forall (fun h => isSuccess (op h) = false) (readreplicas db) ->
             Forall (fun i => isSuccess (answerAt db op i) = false)
                    (rotation s (len db))).
  { intros A op Hf. apply Forall_forall. intros i Hi.
    apply rotation_in_range in Hi; [|lia].
    unfold answerAt.
    destruct (nth_error (readreplicas db) (Z.to_nat i)) as [h|] eqn:E;
      [|reflexivity].
    rewrite Forall_forall in Hf. apply Hf. eapply nth_error_In. exact E. }
  split; [apply rotation_Permutation; exact Hs|]. split; intros Hf.
  - rewrite QueryContext_walk, walk_spec by assumption. fold s.
    rewrite tryInOrder_all_fail by (apply Hall; exact Hf). reflexivity.
  - rewrite prepare_walk, walk_spec by assumption. fold s.
    rewrite tryInOrder_all_fail by (apply Hall; exact Hf). reflexivity.
Qed.

Lemma read_asks_every_replica_once_when_all_fail_witness :
  let db := mkDB 7 (openDB "master") [closedDB; closedDB] in
  QueryContext "Query1" (db, []) =
    (Val (Failure noReplicaAvailableError),
     (setCount db 8, attempts (MQuery "Query1") (rotation 0 2))).
Proof.
  intros db.
  assert (H1 : 1 <= len db <= maxReplicas)
    by (unfold len, maxReplicas, intBits; simpl; lia).
  assert (H2 : 0 <= count db < maxInt)
    by (unfold maxInt, intBits; simpl; lia).
  assert (H3 : Forall (fun h => isSuccess (h_query h "Query1") = false)
                 (readreplicas db)) by (repeat constructor).
  exact (proj1 (proj2 (read_asks_every_replica_once_when_all_fail db [] "Query1"
                         H1 H2)) H3).
Defined.

(** ** Reads at the edges of the counter and of the slice *)

Lemma goRem_bounds (c N : Z) :
  0 < N ->
  - N < goRem c N < N /\ (goRem c N < 0 <-> c < 0 /\ c mod N <> 0).
Proof.
  intros HN. unfold goRem.
  destruct (Z_lt_le_dec c 0) as [Hc|Hc].
  - assert (Hb : - N < Z.rem c N <= 0).
    { replace c with (- (- c)) by lia. rewrite Z.rem_opp_l by lia.
      pose proof (Z.rem_bound_pos (- c) N ltac:(lia) HN). lia. }
    assert (Hz : Z.rem c N = 0 <-> c mod N = 0)
      by (apply Z.rem_mod_eq_0; lia).
    split; [lia|]. split.
    + intros Hs. split; [exact Hc|]. intros E. apply Hz in E. lia.
    + intros (_ & Hm).
      assert (Z.rem c N <> 0) by (intros E; apply Hm, Hz, E). lia.
  - pose proof (Z.rem_bound_pos c N Hc HN) as Hb.
    split; [lia|]. split; lia.
Qed.

(** The shared body from any state in which the selected index is not
    negative. *)
Lemma walk_spec_nonneg {A} (m : method) (op : SqlDB -> Result A) (db : DB)
    (log : list event) :
  1 <= len db <= maxReplicas ->
  let s := goRem (wrapInt (count db + 1)) (len db) in
  0 <= s ->
  let T := tryInOrder (answerAt db op) (rotation s (len db)) in
  walk m op (db, log) =
  (Val (snd T), (increment db, log ++ attempts m (fst T))).
Proof.
  intros HN s Hs0 T.
  assert (Hs : 0 <= s < len db)
    by (pose proof (goRem_bounds (wrapInt (count db + 1)) (len db)); unfold s in *; lia).
  assert (Esel : readReplicaNumberRoundRobin (db, log) = (Val s, (increment db, log))).
  { rewrite selector_eq.
    replace (len db =? 0) with false by (symmetry; apply Z.eqb_neq; lia).
    reflexivity. }
  unfold walk. unfold bind at 1. rewrite Esel.
  set (db' := increment db).
  assert (Hs' : 0 <= s < len db') by exact Hs.
  destruct (onReplica_in_range db' log s m op Hs') as (h & Eh & Ecall).
  unfold bind at 1. rewrite Ecall.
  subst T. rewrite rotation_unfold by exact Hs.
  simpl. unfold answerAt at 1 3.
  change (readreplicas db') with (readreplicas db) in Eh. rewrite Eh.
  destruct (op h) as [a|e]; [reflexivity|].
  unfold bind, getDB. simpl fst. cbv iota beta.
  unfold maxReplicas, intBits in HN.
  rewrite wrapInt_small by (unfold minInt, maxInt, intBits; lia).
  change (s + 1) with (s + Z.of_nat 1).
  assert (HN' : 1 <= len db' <= maxReplicas)
    by (unfold maxReplicas, intBits; change (len db') with (len db); lia).
  assert (Hfuel : (Z.to_nat (len db) - 1 < List.length (readreplicas db'))%nat)
    by (change (readreplicas db') with (readreplicas db); unfold len in *; lia).
  assert (Hsum : Z.of_nat (1 + (Z.to_nat (len db) - 1)) = len db') by
    (change (len db') with (len db); lia).
  rewrite (walk_loop_spec m op db' s HN' Hs' _ 1%nat _ _ (le_n 1) Hsum Hfuel).
  change (len db') with (len db).
  change (answerAt db' op) with (answerAt db op).
  destruct (tryInOrder (answerAt db op)
              (rotationFrom s (len db) 1 (Z.to_nat (len db) - 1))) as [tried r].
  simpl. rewrite <- app_assoc. reflexivity.
Qed.

Lemma selector_then_panics {A B} (m : method) (op : SqlDB -> A)
    (k : Z -> A -> M B) (db : DB) (log : list event) :
  1 <= len db ->
  goRem (wrapInt (count db + 1)) (len db) < 0 ->
  bind readReplicaNumberRoundRobin
       (fun i => bind (onReplica i m op) (k i)) (db, log) =
  (Panic "index out of range", (increment db, log)).
Proof.
  intros HN Hs. unfold bind at 1. rewrite selector_eq.
  replace (len db =? 0) with false by (symmetry; apply Z.eqb_neq; lia).
  unfold bind. fold (increment db).
  rewrite onReplica_out_of_range by exact Hs. reflexivity.
Qed.

(** X11.  Reads after the counter has wrapped.  Let [c] be the counter after
    [db.count++] and [s = c % len(readreplicas)] the index the selector
    returns, for a router with 1 to 2^62 replicas.  [s] is negative exactly
    when [c] is negative and not a multiple of the replica count.  In that
    case [QueryContext], [QueryRowContext] and [prepare] panic with an index
    out of range, having counted once and called no handle; in every other
    case the three of them return. *)
Theorem reads_panic_exactly_on_negative_index (db : DB) (log : list event)
    (q : string) :
  1 <= len db <= maxReplicas ->
  let c := wrapInt (count db + 1) in
  let s := goRem c (len db) in
  (s < 0 <-> c < 0 /\ c mod len db <> 0) /\
  (s < 0 ->
   QueryContext q (db, log) = (Panic "index out of range", (increment db, log)) /\
   QueryRowContext q (db, log) = (Panic "index out of range", (increment db, log)) /\
   prepare q (db, log) = (Panic "index out of range", (increment db, log))) /\
  (0 <= s ->
   exists rows row stmt,
     fst (QueryContext q (db, log)) = Val rows /\
     fst (QueryRowContext q (db, log)) = Val row /\
     fst (prepare q (db, log)) = Val stmt).
Proof.
  intros HN c s.
  destruct (goRem_bounds c (len db) ltac:(lia)) as (Hb & Hiff).
  split; [exact Hiff|]. split.
  - intros Hs. split; [|split].
    + rewrite QueryContext_walk. unfold walk.
      apply (selector_then_panics (MQuery q)); [lia|exact Hs].
    + unfold QueryRowContext, bind. rewrite selector_eq.
      replace (len db =? 0) with false by (symmetry; apply Z.eqb_neq; lia).
      fold (increment db). apply onReplica_out_of_range. exact Hs.
    + rewrite prepare_walk. unfold walk.
      apply (selector_then_panics (MPrepare q)); [lia|exact Hs].
  - intros Hs.
    pose proof (walk_spec_nonneg (MQuery q) (fun h => h_query h q) db log HN Hs) as E1.
    pose proof (walk_spec_nonneg (MPrepare q) (fun h => h_prepare h q) db log HN Hs) as E2.
    cbv zeta in E1, E2.
    assert (Hs' : 0 <= s < len (increment db)) by (change (len (increment db)) with (len db); unfold s in *; lia).
    destruct (onReplica_in_range (increment db) log s (MQueryRow q)
                (fun h => h_queryRow h q) Hs') as (h & _ & Ecall).
    eexists _, (h_queryRow h q), _. split; [|split].
    + rewrite QueryContext_walk, E1. reflexivity.
    + unfold QueryRowContext, bind. rewrite selector_eq.
      replace (len db =? 0) with false by (symmetry; apply Z.eqb_neq; lia).
      fold (increment db). fold c. fold s. rewrite Ecall. reflexivity.
    + rewrite prepare_walk, E2. reflexivity.
Qed.

Lemma reads_panic_exactly_on_negative_index_witness :
  let db := setCount threeReplicas maxInt in
  QueryContext "Query1" (db, []) = (Panic "index out of range", (increment db, [])) /\
  QueryRowContext "Query1" (db, []) = (Panic "index out of range", (increment db, [])) /\
  prepare "Query1" (db, []) = (Panic "index out of range", (increment db, [])).
Proof.
  intros db.
  assert (H1 : 1 <= len db <= maxReplicas)
    by (unfold len, maxReplicas, intBits; simpl; lia).
  assert (H2 : goRem (wrapInt (count db + 1)) (len db) < 0) by reflexivity.
  exact (proj1 (proj2 (reads_panic_exactly_on_negative_index db [] "Query1" H1)) H2).
Defined.

(** X10.  A router without replicas, which [New] refuses but the zero value
    of [DB] is: every read panics on the division by zero in the selector,
    after the counter was incremented and before any handle is called. *)
Theorem reads_without_replicas_divide_by_zero (db : DB) (log : list event)
    (q : string) :
  readreplicas db = [] ->
  QueryContext q (db, log) = (Panic "integer divide by zero", (increment db, log)) /\
  QueryRowContext q (db, log) = (Panic "integer divide by zero", (increment db, log)) /\
  prepare q (db, log) = (Panic "integer divide by zero", (increment db, log)).
Proof.
  intros Hrs.
  assert (E : readReplicaNumberRoundRobin (db, log) =
              (Panic "integer divide by zero", (increment db, log))).
  { rewrite selector_eq. unfold len. rewrite Hrs. reflexivity. }
  unfold QueryContext, QueryRowContext, prepare, bind. rewrite E.
  repeat split.
Qed.

Lemma reads_without_replicas_divide_by_zero_witness :
  let db := mkDB 0 (openDB "master") [] in
  QueryContext "Query1" (db, []) = (Panic "integer divide by zero", (increment db, [])) /\
  QueryRowContext "Query1" (db, []) = (Panic "integer divide by zero", (increment db, [])) /\
  prepare "Query1" (db, []) = (Panic "integer divide by zero", (increment db, [])).
Proof.
  intros db.
  exact (reads_without_replicas_divide_by_zero db [] "Query1" eq_refl).
Defined.

(** X12.  One replica.  With a single replica there is nothing to fail over
    to: from a counter in [0, maxInt), [QueryContext] and [prepare] ask
    replica 0 once and never again; when it fails, its own error is dropped
    and the caller gets "No replica is alive for reading data". *)
Theorem single_replica_is_asked_once (db : DB) (log : list event) (q : string)
    (h : SqlDB) :
  readreplicas db = [h] ->
  0 <= count db < maxInt ->
  QueryContext q (db, log) =
    (Val (match h_query h q with
          | Success rows => Success rows
          | Failure _ => Failure noReplicaAvailableError
          end),
     (setCount db (count db + 1), log ++ [(Replica 0, MQuery q)])) /\
  prepare q (db, log) =
    (Val (match h_prepare h q with
          | Success stmt => Success stmt
          | Failure _ => Failure noReplicaAvailableError
          end),
     (setCount db (count db + 1), log ++ [(Replica 0, MPrepare q)])).
Proof.
  intros Hrs Hc.
  assert (Hlen : len db = 1) by (unfold len; rewrite Hrs; reflexivity).
  assert (HN : 1 <= len db <= maxReplicas)
    by (rewrite Hlen; unfold maxReplicas, intBits; lia).
  assert (Hw : forall A (m : method) (op : SqlDB -> Result A),
             walk m op (db, log) =
             (Val (match op h with
                   | Success a => Success a
                   | Failure _ => Failure noReplicaAvailableError
                   end),
              (setCount db (count db + 1), log ++ [(Replica 0, m)]))).
  { intros A m op. rewrite walk_spec by assumption.
    rewrite Hlen, Z.mod_1_r.
    change (rotation 0 1) with [0]. simpl.
    unfold answerAt. rewrite Hrs. simpl.
    destruct (op h); reflexivity. }
  split.
  - rewrite QueryContext_walk. apply Hw.
  - rewrite prepare_walk. apply Hw.
Qed.

Lemma single_replica_is_asked_once_witness :
  let db := mkDB 0 (openDB "master") [closedDB] in
  QueryContext "Query1" (db, []) =
    (Val (Failure noReplicaAvailableError),
     (setCount db 1, [(Replica 0, MQuery "Query1")])).
Proof.
  intros db.
  assert (H : 0 <= count db < maxInt) by (unfold maxInt, intBits; simpl; lia).
  exact (proj1 (single_replica_is_asked_once db [] "Query1" closedDB eq_refl H)).
Defined.

(** ** Round robin over time *)

Lemma selections_eq (n : nat) (db : DB) (log : list event) :
  1 <= len db -> 0 <= count db -> count db + Z.of_nat n <= maxInt ->
  selections n (db, log) =
  map (fun j => Val ((count db + 1 + Z.of_nat j) mod len db)) (seq 0 n).
Proof.
  revert db. induction n as [|n IH]; intros db HN Hc Hn; [reflexivity|].
  destruct (selector_in_range db log HN ltac:(lia)) as (Esel & _).
  cbn [selections]. rewrite Esel. cbn [fst snd].
  rewrite IH by (simpl; rewrite ?len_setCount; lia).
  cbn [seq map]. rewrite Z.add_0_r. f_equal.
  rewrite <- seq_shift, map_map. apply map_ext. intros j.
  simpl count. rewrite len_setCount. do 2 f_equal. lia.
Qed.

(** X8.  Every replica gets its turn.  In any [len(readreplicas)] selector
    calls in a row that do not take the counter past [maxInt], each replica
    index is returned exactly once: the indices returned are the rotation
    from the first of them, a permutation of the indices of the slice. *)
Theorem selector_window_is_a_permutation (db : DB) (log : list event) :
  1 <= len db ->
  0 <= count db ->
  count db + len db <= maxInt ->
  let s := (count db + 1) mod len db in
  selections (List.length (readreplicas db)) (db, log) =
    map Val (rotation s (len db)) /\
  Permutation (rotation s (len db)) (indices db).
Proof.
  intros HN Hc Hmax s.
  assert (Hs : 0 <= s < len db) by (apply Z.mod_pos_bound; lia).
  split; [|apply rotation_Permutation; exact Hs].
  rewrite selections_eq by (unfold len in *; lia).
  unfold rotation. rewrite map_map.
  replace (Z.to_nat (len db)) with (List.length (readreplicas db))
    by (unfold len; lia).
  apply map_ext. intros j. f_equal. unfold s.
  rewrite Z.add_mod_idemp_l by lia. reflexivity.
Qed.

Lemma selector_window_is_a_permutation_witness :
  selections 3 (setCount threeReplicas 4, []) = map Val (rotation 2 3) /\
  Permutation (rotation 2 3) (indices threeReplicas).
Proof.
  assert (H1 : 1 <= len (setCount threeReplicas 4)) by (unfold len; simpl; lia).
  assert (H2 : 0 <= count (setCount threeReplicas 4)) by (simpl; lia).
  assert (H3 : count (setCount threeReplicas 4) + len (setCount threeReplicas 4)
               <= maxInt)
    by (unfold len, maxInt, intBits; simpl; lia).
  exact (selector_window_is_a_permutation (setCount threeReplicas 4) [] H1 H2 H3).
Defined.

Lemma preserves_state {A} (c : M A) (db : DB) (log : list event) :
  preserves c -> fst (snd (c (db, log))) = db.
Proof. intros H. apply H. Qed.

(** What one call does to the counter and to the length of the slice. *)
Lemma runOp_counter (U : Unicode) (o : operation) (db : DB) (log : list event) :
  count (fst (runOp U o (db, log))) =
    (if usesSelector U o then wrapInt (count db + 1) else count db) /\
  len (fst (runOp U o (db, log))) = len db.
Proof.
  assert (Hinc : count (increment db) = wrapInt (count db + 1) /\
                 len (increment db) = len db) by (split; reflexivity).
  destruct o as [q|q|q|q| |order| |d|n|n|m rs]; cbn [runOp usesSelector].
  - rewrite QueryContext_walk, walk_count. exact Hinc.
  - unfold QueryRowContext. rewrite selector_then by (intro; frame). exact Hinc.
  - unfold PrepareContext.
    destruct (HasPrefix (ToLower U (TrimSpace U q)) "select"); cbn [negb].
    + rewrite prepare_walk, walk_count. exact Hinc.
    + rewrite preserves_state by frame. split; reflexivity.
  - rewrite preserves_state by (unfold ExecContext; frame). split; reflexivity.
  - rewrite preserves_state by (unfold BeginTx; frame). split; reflexivity.
  - rewrite preserves_state by (unfold PingContext; frame). split; reflexivity.
  - rewrite preserves_state by (unfold Close; frame). split; reflexivity.
  - rewrite preserves_state by (unfold SetConnMaxLifetime, tune; frame).
    split; reflexivity.
  - rewrite preserves_state by (unfold SetMaxIdleConns, tune; frame).
    split; reflexivity.
  - rewrite preserves_state by (unfold SetMaxOpenConns, tune; frame).
    split; reflexivity.
  - cbn [fst snd]. unfold changeHandles.
    destruct (Nat.eqb_spec (List.length rs) (List.length (readreplicas db))) as [E|E].
    + split; [reflexivity|]. unfold len. simpl. rewrite E. reflexivity.
    + split; reflexivity.
Qed.

Lemma runOps_counter (U : Unicode) (os : list operation) (db : DB)
    (log : list event) :
  minInt <= count db <= maxInt ->
  count (fst (runOps U os (db, log))) =
    wrapInt (count db + Z.of_nat (List.length (filter (usesSelector U) os))) /\
  len (fst (runOps U os (db, log))) = len db.
Proof.
  revert db log. induction os as [|o os IH]; intros db log Hc.
  - simpl. rewrite Z.add_0_r, wrapInt_small by exact Hc. split; reflexivity.
  - change (runOps U (o :: os) (db, log)) with (runOps U os (runOp U o (db, log))).
    destruct (runOp_counter U o db log) as (Ec & El).
    destruct (runOp U o (db, log)) as [db1 log1]. cbn [fst] in Ec, El.
    assert (Hc1 : minInt <= count db1 <= maxInt).
    { rewrite Ec. destruct (usesSelector U o); [apply wrapInt_range|exact Hc]. }
    destruct (IH db1 log1 Hc1) as (Ec' & El').
    split; [|congruence].
    rewrite Ec', Ec. cbn [filter].
    destruct (usesSelector U o).
    + rewrite wrapInt_add_idemp. f_equal.
      rewrite length_cons, Nat2Z.inj_succ. lia.
    + reflexivity.
Qed.

(** X9.  Only reads move the round robin.  Take a router built by [New] and
    any sequence of calls on it: queries, prepares, executions, transaction
    starts, pings under any schedule, closes, pool tuning, and changes of
    what the handles answer in between.  If [r] of these calls are [Query],
    [QueryRow] or a [Prepare] of a text classified as a read, and
    [r < maxInt], then the counter is [r] and the next read is handed index
    [(r + 1) mod len(readreplicas)]: the other calls, the outcomes of the
    reads and the health of the handles do not shift the rotation. *)
Theorem round_robin_counts_reads_only (U : Unicode) (m : SqlDB) (rs : list SqlDB)
    (db0 : DB) (os : list operation) :
  New m rs = Success db0 ->
  let r := Z.of_nat (List.length (filter (usesSelector U) os)) in
  r < maxInt ->
  let st := runOps U os (db0, []) in
  count (fst st) = r /\
  len (fst st) = len db0 /\
  nextIndex st = Val ((r + 1) mod len db0).
Proof.
  intros HNew r Hr st.
  destruct (New_ok m rs db0 HNew) as (-> & HN).
  assert (Hc0 : minInt <= count (mkDB 0 m rs) <= maxInt)
    by (unfold minInt, maxInt, intBits; simpl; lia).
  destruct (runOps_counter U os (mkDB 0 m rs) [] Hc0) as (Ec & El).
  fold st in Ec, El. fold r in Ec. cbn [count] in Ec.
  rewrite Z.add_0_l, wrapInt_small in Ec
    by (unfold minInt, maxInt, intBits in *; unfold r in *; lia).
  split; [exact Ec|]. split; [exact El|].
  destruct st as [db log]. cbn [fst] in Ec, El.
  unfold nextIndex.
  destruct (selector_in_range db log) as (-> & _);
    [rewrite El; exact HN|rewrite Ec; unfold r in *; lia|].
  rewrite Ec, El. reflexivity.
Qed.

Lemma round_robin_counts_reads_only_witness :
  let os := [OExec "insert"; OQuery "Query1"; OPing [2; 0; 1];
             OHandlesChange closedDB [closedDB; closedDB; closedDB];
             OPrepare "update t"; OQueryRow "Query2"; OClose;
             OSetMaxIdleConns 100; OPrepare " Select 1"] in
  let st := runOps asciiOnly os (threeReplicas, []) in
  count (fst st) = 3 /\
  len (fst st) = len threeReplicas /\
  nextIndex st = Val ((3 + 1) mod len threeReplicas).
Proof.
  intros os.
  assert (H1 : New (openDB "master") [openDB "r1"; openDB "r2"; openDB "r3"]
               = Success threeReplicas) by reflexivity.
  assert (H2 : Z.of_nat (List.length (filter (usesSelector asciiOnly) os)) < maxInt)
    by (unfold maxInt, intBits; simpl; lia).
  exact (round_robin_counts_reads_only asciiOnly _ _ threeReplicas os H1 H2).
Defined.

(** ** Ping, under every schedule *)

Lemma failedTargets_zero (db : DB) :
  failedTargets db = 0%nat <->
  h_ping (master db) = None /\ Forall (fun h => h_ping h = None) (readreplicas db).
Proof.
  unfold failedTargets, pingFails. split.
  - intros H. destruct (h_ping (master db)) as [e|]; simpl in H; [lia|].
    split; [reflexivity|].
    induction (readreplicas db) as [|h rs IH]; [constructor|].
    simpl in H. destruct (h_ping h) as [e|] eqn:E; simpl in H; [discriminate|].
    constructor; [exact E|apply IH; exact H].
  - intros (Hm & Hr). rewrite Hm. simpl.
    induction Hr as [|h rs Hh Hr IH]; [reflexivity|].
    simpl. rewrite Hh. simpl. exact IH.
Qed.

(** X13.  [PingContext] returns nil only when everything answers.  Under
    every schedule of the ping goroutines, the result is nil exactly when the
    ping of the master and the ping of every replica succeed; one failure
    anywhere makes the whole health check fail. *)
Theorem PingContext_nil_iff_all_answer (db : DB) (log : list event)
    (order : list Z) :
  schedule db order ->
  (fst (PingContext order (db, log)) = Val None <->
   h_ping (master db) = None /\
   Forall (fun h => h_ping h = None) (readreplicas db)).
Proof.
  intros Hs. rewrite <- failedTargets_zero.
  rewrite PingContext_spec by exact Hs. cbn [fst].
  rewrite <- (failureLines_count db order Hs).
  destruct (failureLines db order); simpl; split; intros H;
    try reflexivity; discriminate.
Qed.

Lemma PingContext_nil_iff_all_answer_witness :
  fst (PingContext [1; 0] (pingScenario, [])) = Val None <->
  h_ping (master pingScenario) = None /\
  Forall (fun h => h_ping h = None) (readreplicas pingScenario).
Proof.
  assert (H1 : schedule pingScenario [1; 0])
    by (unfold schedule, indices; simpl; apply perm_swap).
  exact (PingContext_nil_iff_all_answer pingScenario [] [1; 0] H1).
Defined.

(** X14.  [PingContext] pings every handle once and does not stop early.
    Under every schedule it returns, leaves the router as it was, and has
    pinged the master first and then every replica exactly once, whether or
    not the master or an earlier replica failed. *)
Theorem PingContext_pings_every_handle_once (db : DB) (log : list event)
    (order : list Z) :
  schedule db order ->
  let pings := (Master, MPing) :: map (fun i => (Replica i, MPing)) order in
  (exists e, PingContext order (db, log) = (Val e, (db, log ++ pings))) /\
  Permutation pings (sweep db MPing) /\
  NoDup pings.
Proof.
  intros Hs pings.
  assert (Hp : Permutation pings (sweep db MPing)).
  { unfold pings, sweep. apply perm_skip. apply Permutation_map. exact Hs. }
  split; [|split].
  - eexists. apply PingContext_spec. exact Hs.
  - exact Hp.
  - eapply Permutation_NoDup; [apply Permutation_sym; exact Hp|apply sweep_NoDup].
Qed.

Lemma PingContext_pings_every_handle_once_witness :
  let pings := (Master, MPing) :: map (fun i => (Replica i, MPing)) [1; 0] in
  (exists e, PingContext [1; 0] (pingScenario, []) = (Val e, (pingScenario, pings))) /\
  Permutation pings (sweep pingScenario MPing) /\
  NoDup pings.
Proof.
  assert (H1 : schedule pingScenario [1; 0])
    by (unfold schedule, indices; simpl; apply perm_swap).
  exact (PingContext_pings_every_handle_once pingScenario [] [1; 0] H1).
Defined.

(** X15.  The schedule decides the order of the lines and nothing else.
    Two schedules give error texts made of the same failure lines, the
    master line first in both; the replica lines are a permutation of each
    other. *)
Theorem PingContext_lines_up_to_order (db : DB) (log : list event)
    (order1 order2 : list Z) :
  schedule db order1 ->
  schedule db order2 ->
  fst (PingContext order1 (db, log)) = Val (joined (failureLines db order1)) /\
  fst (PingContext order2 (db, log)) = Val (joined (failureLines db order2)) /\
  failureLines db order1 =
    masterLine db ++ flat_map (replicaLine (readreplicas db)) order1 /\
  failureLines db order2 =
    masterLine db ++ flat_map (replicaLine (readreplicas db)) order2 /\
  Permutation (flat_map (replicaLine (readreplicas db)) order1)
              (flat_map (replicaLine (readreplicas db)) order2).
Proof.
  intros H1 H2.
  repeat match goal with |- _ /\ _ => split end; try reflexivity.
  - rewrite PingContext_spec by exact H1. reflexivity.
  - rewrite PingContext_spec by exact H2. reflexivity.
  - apply Permutation_flat_map.
    eapply Permutation_trans; [exact H1|apply Permutation_sym; exact H2].
Qed.

Lemma PingContext_lines_up_to_order_witness :
  let db := mkDB 0 (openDB "master") [closedDB; closedDB] in
  Permutation (flat_map (replicaLine (readreplicas db)) [0; 1])
              (flat_map (replicaLine (readreplicas db)) [1; 0]).
Proof.
  intros db.
  assert (H1 : schedule db [0; 1])
    by (unfold schedule, indices; simpl; apply Permutation_refl).
  assert (H2 : schedule db [1; 0])
    by (unfold schedule, indices; simpl; apply perm_swap).
  exact (proj2 (proj2 (proj2 (proj2
           (PingContext_lines_up_to_order db [] [0; 1] [1; 0] H1 H2))))).
Defined.

Lemma line_first_byte (db : DB) (order : list Z) :
  Forall (fun line => String.get 0 line = Some "m"%char \/
                      String.get 0 line = Some "r"%char)
         (failureLines db order).
Proof.
  unfold failureLines. apply Forall_app. split.
  - unfold masterLine. destruct (h_ping (master db)); constructor.
    + left. reflexivity.
    + constructor.
  - apply Forall_flat_map. apply Forall_forall. intros i _.
    unfold replicaLine.
    destruct (nth_error (readreplicas db) (Z.to_nat i)) as [h|]; [|constructor].
    destruct (h_ping h); constructor.
    + right. reflexivity.
    + constructor.
Qed.

(** X16.  The "Ping Channel is closed" branch is never taken.  The channel
    is closed only when [PingContext] returns, so under every schedule the
    error of [PingContext], if any, is the join of failure lines, which
    starts with the line of the master or of a replica and is not the text
    "Ping Channel is closed". *)
Theorem PingContext_never_reports_closed_channel (db : DB) (log : list event)
    (order : list Z) :
  schedule db order ->
  fst (PingContext order (db, log)) <> Val (Some pingChannelCloseError).
Proof.
  intros Hs. rewrite PingContext_spec by exact Hs. cbn [fst].
  pose proof (line_first_byte db order) as Hl.
  destruct (failureLines db order) as [|line lines]; [discriminate|].
  inversion Hl as [|? ? Hline _]; subst.
  intros E.
  assert (E' : String.concat nl (line :: lines) = pingChannelCloseError)
    by (injection E as E; exact E).
  assert (Hget : String.get 0 (String.concat nl (line :: lines)) = String.get 0 line).
  { destruct line as [|c line]; [destruct Hline; discriminate|].
    simpl. destruct lines; reflexivity. }
  rewrite E' in Hget. simpl in Hget.
  destruct Hline as [H|H]; rewrite H in Hget; discriminate.
Qed.

Lemma PingContext_never_reports_closed_channel_witness :
  fst (PingContext [1; 0] (pingScenario, [])) <> Val (Some pingChannelCloseError).
Proof.
  assert (H1 : schedule pingScenario [1; 0])
    by (unfold schedule, indices; simpl; apply perm_swap).
  exact (PingContext_never_reports_closed_channel pingScenario [] [1; 0] H1).
Defined.

Lemma collect_starves (n : nat) (ch : list pingChanResponse) (es : list string)
    (st : state) :
  (List.length ch < n)%nat ->
  PingContext_collect n ch es st = (Stuck, st).
Proof.
  revert ch es. induction n as [|n IH]; intros ch es Hlen; [lia|].
  destruct ch as [|r ch]; [reflexivity|].
  simpl in *. destruct (err r); apply IH; lia.
Qed.

(** X17.  [PingContext] waits for every replica.  The collecting loop
    receives once per replica and has no other way out: when the pings that
    complete are fewer than the replicas (a ping that hangs never sends),
    [PingContext] does not return, even if a failure is already known. *)
Theorem PingContext_waits_for_every_replica (db : DB) (log : list event)
    (order : list Z) :
  Forall (fun i => 0 <= i < len db) order ->
  (List.length order < List.length (readreplicas db))%nat ->
  fst (PingContext order (db, log)) = Stuck.
Proof.
  intros Hin Hlen.
  destruct (fanOut_spec db order Hin (log ++ [(Master, MPing)]))
    as (ch & Ech & Elen & _).
  unfold PingContext, onMaster, bind, getDB, call, ret. simpl.
  unfold state in *. rewrite Ech. simpl.
  rewrite collect_starves by (rewrite Elen; exact Hlen). reflexivity.
Qed.

Lemma PingContext_waits_for_every_replica_witness :
  fst (PingContext [0] (pingScenario, [])) = Stuck.
Proof.
  assert (H1 : Forall (fun i => 0 <= i < len pingScenario) [0])
    by (repeat constructor; unfold len; simpl; lia).
  assert (H2 : (List.length [0] < List.length (readreplicas pingScenario))%nat)
    by (simpl; lia).
  exact (PingContext_waits_for_every_replica pingScenario [] [0] H1 H2).
Defined.

(** ** The classification of [PrepareContext] *)

Lemma asciiSpace_is_ascii (c : ascii) :
  asciiSpace c = true -> (RuneSelf <=? byte c) = false.
Proof.
  unfold asciiSpace, RuneSelf. intros H. apply Z.leb_gt.
  apply orb_true_iff in H. destruct H as [H|H].
  - apply andb_true_iff in H. destruct H as (_ & H). apply Z.leb_le in H. lia.
  - apply Z.eqb_eq in H. lia.
Qed.

Lemma list_ascii_of_string_app (s t : string) :
  list_ascii_of_string (s +++ t) = list_ascii_of_string s ++ list_ascii_of_string t.
Proof. induction s as [|c s IH]; simpl; [reflexivity|]. rewrite IH. reflexivity. Qed.

Lemma TrimSpace_start_skips (U : Unicode) (sp s : list ascii) :
  Forall (fun c => asciiSpace c = true) sp ->
  TrimSpace_start U (sp ++ s) = TrimSpace_start U s.
Proof.
  induction 1 as [|c sp Hc Hsp IH]; [reflexivity|].
  simpl. rewrite (asciiSpace_is_ascii c Hc), Hc. exact IH.
Qed.

(** X18.  Leading white space does not change the route.  For every text,
    ASCII or not, putting tabs, line feeds, vertical tabs, form feeds,
    carriage returns or spaces in front of it changes neither what
    [TrimSpace] returns nor, therefore, whether [PrepareContext] prepares on
    a replica or on the master. *)
Theorem leading_spaces_do_not_change_the_route (U : Unicode) (sp q : string) :
  Forall (fun c => asciiSpace c = true) (list_ascii_of_string sp) ->
  TrimSpace U (sp +++ q) = TrimSpace U q /\
  HasPrefix (ToLower U (TrimSpace U (sp +++ q))) "select" =
  HasPrefix (ToLower U (TrimSpace U q)) "select".
Proof.
  intros Hsp.
  assert (E : TrimSpace U (sp +++ q) = TrimSpace U q).
  { unfold TrimSpace. rewrite list_ascii_of_string_app.
    apply TrimSpace_start_skips. exact Hsp. }
  split; [exact E|]. rewrite E. reflexivity.
Qed.

Lemma leading_spaces_do_not_change_the_route_witness :
  TrimSpace asciiOnly ("  " +++ "Select 1") = TrimSpace asciiOnly "Select 1" /\
  HasPrefix (ToLower asciiOnly (TrimSpace asciiOnly ("  " +++ "Select 1"))) "select" =
  HasPrefix (ToLower asciiOnly (TrimSpace asciiOnly "Select 1")) "select".
Proof.
  assert (H : Forall (fun c => asciiSpace c = true) (list_ascii_of_string "  "))
    by (repeat constructor).
  exact (leading_spaces_do_not_change_the_route asciiOnly "  " "Select 1" H).
Defined.

Lemma dropSpaces_split (l : list ascii) :
  exists sp, l = sp ++ dropSpaces l /\ Forall (fun c => asciiSpace c = true) sp.
Proof.
  induction l as [|c l IH]; simpl.
  - exists []. split; [reflexivity|constructor].
  - destruct (asciiSpace c) eqn:E.
    + destruct IH as (sp & Esp & Hsp). exists (c :: sp). split.
      * simpl. rewrite <- Esp. reflexivity.
      * constructor; assumption.
    + exists []. split; [reflexivity|constructor].
Qed.

Lemma dropSpaces_ascii (l : list ascii) :
  Forall (fun c => byte c < RuneSelf) l ->
  Forall (fun c => byte c < RuneSelf) (dropSpaces l).
Proof.
  induction 1 as [|c l Hc Hl IH]; simpl; [constructor|].
  destruct (asciiSpace c); [exact IH|constructor; assumption].
Qed.

Lemma TrimSpace_stop_ascii (U : Unicode) (r : list ascii) :
  Forall (fun c => byte c < RuneSelf) r ->
  TrimSpace_stop U r = string_of_list_ascii (rev (dropSpaces r)).
Proof.
  induction 1 as [|c r Hc Hr IH]; [reflexivity|].
  simpl. replace (RuneSelf <=? byte c) with false by (symmetry; apply Z.leb_gt; lia).
  destruct (asciiSpace c); [exact IH|reflexivity].
Qed.

Lemma TrimSpace_start_ascii (U : Unicode) (s : list ascii) :
  Forall (fun c => byte c < RuneSelf) s ->
  TrimSpace_start U s =
  string_of_list_ascii (rev (dropSpaces (rev (dropSpaces s)))).
Proof.
  induction 1 as [|c s Hc Hs IH]; [reflexivity|].
  simpl. replace (RuneSelf <=? byte c) with false by (symmetry; apply Z.leb_gt; lia).
  destruct (asciiSpace c); [exact IH|].
  apply TrimSpace_stop_ascii. apply Forall_rev. constructor; assumption.
Qed.

Lemma isASCII_Forall (s : string) :
  isASCII s = true <-> Forall (fun c => byte c < RuneSelf) (list_ascii_of_string s).
Proof.
  unfold isASCII. rewrite forallb_forall, Forall_forall.
  split; intros H c Hc; specialize (H c Hc).
  - apply Z.ltb_lt. exact H.
  - apply Z.ltb_lt. exact H.
Qed.

(** A prefix that holds none of the bytes that follow [a] is found in
    [a ++ b] exactly when it is found in [a]. *)
Lemma prefix_app_foreign (p : string) (a b : list ascii) :
  Forall (fun c => ~ In c (list_ascii_of_string p)) b ->
  String.prefix p (string_of_list_ascii (a ++ b)) =
  String.prefix p (string_of_list_ascii a).
Proof.
  revert p. induction a as [|y a IH]; intros p Hb.
  - destruct p as [|x p]; [destruct b; reflexivity|].
    destruct b as [|c b]; [reflexivity|]. simpl.
    inversion Hb as [|? ? Hc _]; subst.
    destruct (ascii_dec x c) as [->|_]; [|reflexivity].
    exfalso. apply Hc. left. reflexivity.
  - destruct p as [|x p]; [reflexivity|]. simpl.
    destruct (ascii_dec x y); [|reflexivity].
    apply IH. eapply Forall_impl; [|exact Hb].
    intros c Hc Hin. apply Hc. right. exact Hin.
Qed.

Lemma space_not_in_select (c : ascii) :
  asciiSpace c = true -> ~ In (lowerByte c) (list_ascii_of_string "select").
Proof.
  intros Hc Hin.
  assert (Hl : lowerByte c = c).
  { unfold lowerByte. unfold asciiSpace in Hc.
    destruct ((65 <=? byte c) && (byte c <=? 90)) eqn:E; [|reflexivity].
    apply andb_true_iff in E. destruct E as (E1 & E2).
    apply Z.leb_le in E1. apply Z.leb_le in E2.
    apply orb_true_iff in Hc. destruct Hc as [H|H].
    - apply andb_true_iff in H. destruct H as (_ & H). apply Z.leb_le in H. lia.
    - apply Z.eqb_eq in H. lia. }
  rewrite Hl in Hin. simpl in Hin.
  repeat (destruct Hin as [<-|Hin]; [discriminate Hc|]). exact Hin.
Qed.

(** X19.  The classification of an ASCII text.  For a text of bytes below
    128, whatever the Unicode slow paths of [strings] do, [TrimSpace] drops
    the ASCII white space at both ends, and [PrepareContext] takes the read
    path exactly when the text, after its leading white space, starts with
    the six letters "select" in any mix of cases.  White space at the end and
    everything after the sixth letter play no part. *)
Theorem ascii_text_is_a_read_iff_select_follows_spaces (U : Unicode) (q : string) :
  isASCII q = true ->
  TrimSpace U q =
    string_of_list_ascii
      (rev (dropSpaces (rev (dropSpaces (list_ascii_of_string q))))) /\
  HasPrefix (ToLower U (TrimSpace U q)) "select" =
    String.prefix "select"
      (string_of_list_ascii
         (map lowerByte (dropSpaces (list_ascii_of_string q)))).
Proof.
  intros Hq. apply isASCII_Forall in Hq.
  set (t := dropSpaces (list_ascii_of_string q)).
  assert (Ht : Forall (fun c => byte c < RuneSelf) t) by (apply dropSpaces_ascii, Hq).
  assert (Etrim : TrimSpace U q = string_of_list_ascii (rev (dropSpaces (rev t))))
    by (apply TrimSpace_start_ascii; exact Hq).
  split; [exact Etrim|].
  destruct (dropSpaces_split (rev t)) as (sp & Esp & Hsp).
  set (t' := rev (dropSpaces (rev t))) in *.
  assert (Et : t = t' ++ rev sp).
  { unfold t'. rewrite <- rev_app_distr, <- Esp, rev_involutive. reflexivity. }
  assert (Ht' : Forall (fun c => byte c < RuneSelf) t').
  { rewrite Et in Ht. apply Forall_app in Ht. apply Ht. }
  unfold HasPrefix, ToLower. rewrite Etrim.
  replace (isASCII (string_of_list_ascii t')) with true.
  2:{ symmetry. apply isASCII_Forall.
      rewrite list_ascii_of_string_of_list_ascii. exact Ht'. }
  rewrite list_ascii_of_string_of_list_ascii.
  rewrite Et, map_app. symmetry. apply prefix_app_foreign.
  apply Forall_map. apply Forall_rev.
  eapply Forall_impl; [|exact Hsp].
  intros c Hc. apply space_not_in_select. exact Hc.
Qed.

Lemma ascii_text_is_a_read_iff_select_follows_spaces_witness :
  HasPrefix (ToLower asciiOnly (TrimSpace asciiOnly "  SeLeCt 1  ")) "select" =
  String.prefix "select"
    (string_of_list_ascii
       (map lowerByte (dropSpaces (list_ascii_of_string "  SeLeCt 1  ")))).
Proof.
  assert (H : isASCII "  SeLeCt 1  " = true) by reflexivity.
  exact (proj2 (ascii_text_is_a_read_iff_select_follows_spaces asciiOnly
                  "  SeLeCt 1  " H)).
Defined.

(** ** The failover loop: its end and its first step *)

(** X20.  The loops of [QueryContext] and [prepare] end.  Entered after a
    failed attempt on a valid index [s], with [i = s + 1], each loop returns
    after at most [len(readreplicas)] iterations: any fuel of at least that
    many iterations gives the same outcome as exactly that many, and the
    outcome is a returned value, never an unfinished loop or a panic. *)
Theorem failover_loops_terminate (db : DB) (log : list event) (q : string)
    (s : Z) (fuel : nat) :
  1 <= len db <= maxReplicas ->
  0 <= s < len db ->
  (List.length (readreplicas db) <= fuel)%nat ->
  (QueryContext_loop fuel q s (s + 1) (db, log) =
     QueryContext_loop (List.length (readreplicas db)) q s (s + 1) (db, log) /\
   exists r, fst (QueryContext_loop fuel q s (s + 1) (db, log)) = Val r) /\
  (prepare_loop fuel q s (s + 1) (db, log) =
     prepare_loop (List.length (readreplicas db)) q s (s + 1) (db, log) /\
   exists r, fst (prepare_loop fuel q s (s + 1) (db, log)) = Val r).
Proof.
  intros HN Hs Hfuel.
  assert (Hsum : Z.of_nat (1 + (List.length (readreplicas db) - 1)) = len db)
    by (unfold len in *; lia).
  assert (Hw : forall A (m : method) (op : SqlDB -> Result A) (f : nat),
             (List.length (readreplicas db) <= f)%nat ->
             walk_loop f m op s (s + 1) (db, log) =
             (Val (snd (tryInOrder (answerAt db op)
                          (rotationFrom s (len db) 1
                             (List.length (readreplicas db) - 1)))),
              (db, log ++ attempts m
                            (fst (tryInOrder (answerAt db op)
                                    (rotationFrom s (len db) 1
                                       (List.length (readreplicas db) - 1))))))).
  { intros A m op f Hf. change (s + 1) with (s + Z.of_nat 1).
    apply walk_loop_spec; try assumption; unfold len in *; lia. }
  split.
  - rewrite !QueryContext_loop_walk.
    rewrite (Hw _ _ _ fuel Hfuel), (Hw _ _ _ _ (le_n _)).
    split; [reflexivity|]. eexists. reflexivity.
  - rewrite !prepare_loop_walk.
    rewrite (Hw _ _ _ fuel Hfuel), (Hw _ _ _ _ (le_n _)).
    split; [reflexivity|]. eexists. reflexivity.
Qed.

Lemma failover_loops_terminate_witness :
  QueryContext_loop 10 "Query1" 0 (0 + 1) (twoDown, []) =
    QueryContext_loop (List.length (readreplicas twoDown)) "Query1" 0 (0 + 1)
      (twoDown, []) /\
  exists r, fst (QueryContext_loop 10 "Query1" 0 (0 + 1) (twoDown, [])) = Val r.
Proof.
  assert (H1 : 1 <= len twoDown <= maxReplicas)
    by (unfold len, maxReplicas, intBits; simpl; lia).
  assert (H2 : 0 <= 0 < len twoDown) by (unfold len; simpl; lia).
  assert (H3 : (List.length (readreplicas twoDown) <= 10)%nat) by (simpl; lia).
  exact (proj1 (failover_loops_terminate twoDown [] "Query1" 0 10 H1 H2 H3)).
Defined.

(** X21.  One replica down shifts its reads to its successor.  When the
    selected replica fails the query and the next one in the slice (the
    first one, after the last) answers it, [QueryContext] returns the rows
    of that successor after exactly two attempts, the failed one and the
    successful one; [prepare] does the same. *)
Theorem failed_replica_is_covered_by_its_successor (db : DB) (log : list event)
    (q : string) (h1 h2 : SqlDB) :
  2 <= len db <= maxReplicas ->
  0 <= count db < maxInt ->
  let s := (count db + 1) mod len db in
  let s' := (s + 1) mod len db in
  nth_error (readreplicas db) (Z.to_nat s) = Some h1 ->
  nth_error (readreplicas db) (Z.to_nat s') = Some h2 ->
  (isSuccess (h_query h1 q) = false -> isSuccess (h_query h2 q) = true ->
   QueryContext q (db, log) =
     (Val (h_query h2 q),
      (setCount db (count db + 1),
       log ++ [(Replica s, MQuery q); (Replica s', MQuery q)]))) /\
  (isSuccess (h_prepare h1 q) = false -> isSuccess (h_prepare h2 q) = true ->
   prepare q (db, log) =
     (Val (h_prepare h2 q),
      (setCount db (count db + 1),
       log ++ [(Replica s, MPrepare q); (Replica s', MPrepare q)]))).
Proof.
  intros HN Hc s s' E1 E2.
  assert (Hs : 0 <= s < len db) by (apply Z.mod_pos_bound; lia).
  assert (Hrot : exists rest, rotation s (len db) = s :: s' :: rest).
  { rewrite rotation_unfold by exact Hs. unfold rotationFrom.
    replace (Z.to_nat (len db) - 1)%nat with (S (Z.to_nat (len db) - 2)) by lia.
    eexists. reflexivity. }
  destruct Hrot as (rest & Erot).
  assert (Hw : forall A (m : method) (op : SqlDB -> Result A),
             isSuccess (op h1) = false -> isSuccess (op h2) = true ->
             walk m op (db, log) =
             (Val (op h2),
              (setCount db (count db + 1),
               log ++ [(Replica s, m); (Replica s', m)]))).
  { intros A m op F1 F2.
    rewrite walk_spec by (try assumption; lia). fold s. rewrite Erot.
    simpl. unfold answerAt. rewrite E1, E2.
    destruct (op h1); [discriminate|].
    destruct (op h2); [reflexivity|discriminate]. }
  split; intros F1 F2.
  - rewrite QueryContext_walk. apply Hw; assumption.
  - rewrite prepare_walk. apply Hw; assumption.
Qed.

Lemma failed_replica_is_covered_by_its_successor_witness :
  let db := mkDB 2 (openDB "master") [closedDB; openDB "r2"; openDB "r3"] in
  QueryContext "Query1" (db, []) =
    (Val (Success (mkRows ["r2"])),
     (setCount db 3, [(Replica 0, MQuery "Query1"); (Replica 1, MQuery "Query1")])).
Proof.
  intros db.
  assert (H1 : 2 <= len db <= maxReplicas)
    by (unfold len, maxReplicas, intBits; simpl; lia).
  assert (H2 : 0 <= count db < maxInt) by (unfold maxInt, intBits; simpl; lia).
  exact (proj1 (failed_replica_is_covered_by_its_successor db [] "Query1"
                  closedDB (openDB "r2") H1 H2 eq_refl eq_refl) eq_refl eq_refl).
Defined.

(** ** The route of [PrepareContext], text by text *)

Ltac ascii_cases c := destruct c as [[] [] [] [] [] [] [] []].

Lemma asciiSpace_isWhiteSpaceChar (c : ascii) :
  asciiSpace c = isWhiteSpaceChar c.
Proof. ascii_cases c; reflexivity. Qed.

Lemma dropSpaces_skipLeadingWhiteSpace (s : list ascii) :
  dropSpaces s = skipLeadingWhiteSpace s.
Proof.
  induction s as [|c s IH]; [reflexivity|].
  simpl. rewrite asciiSpace_isWhiteSpaceChar, IH. reflexivity.
Qed.

Lemma lowerByte_matches (lo up c : ascii) :
  In (lo, up) [("s", "S"); ("e", "E"); ("l", "L"); ("c", "C"); ("t", "T")]%char ->
  (if ascii_dec lo (lowerByte c) then true else false) = sameLetter lo up c.
Proof.
  intros Hin. simpl in Hin.
  repeat (destruct Hin as [E|Hin];
          [injection E as <- <-; ascii_cases c; reflexivity|]).
  destruct Hin.
Qed.

Lemma prefix_lower_step (lo up : ascii) (p : string) (c : ascii) (t : list ascii) :
  In (lo, up) [("s", "S"); ("e", "E"); ("l", "L"); ("c", "C"); ("t", "T")]%char ->
  String.prefix (String lo p) (string_of_list_ascii (map lowerByte (c :: t))) =
  sameLetter lo up c && String.prefix p (string_of_list_ascii (map lowerByte t)).
Proof.
  intros Hin. rewrite <- (lowerByte_matches lo up c Hin). simpl.
  destruct (ascii_dec lo (lowerByte c)); reflexivity.
Qed.

Lemma prefix_select_begins (t : list ascii) :
  String.prefix "select" (string_of_list_ascii (map lowerByte t)) =
  beginsWithSelect t.
Proof.
  destruct t as [|c1 [|c2 [|c3 [|c4 [|c5 [|c6 rest]]]]]];
    unfold beginsWithSelect;
    cbn [map string_of_list_ascii String.prefix];
    repeat match goal with
           | |- context [sameLetter ?a ?b ?c] =>
               rewrite <- (lowerByte_matches a b c) by (simpl; auto 10)
           end;
    repeat match goal with
           | |- context [ascii_dec ?a ?b] => destruct (ascii_dec a b)
           end;
    try reflexivity;
    match goal with
    | |- context [String.prefix EmptyString ?s] => destruct s; reflexivity
    end.
Qed.

Lemma IsSpace_ascii (c : ascii) :
  byte c < RuneSelf -> IsSpace (byte c) = asciiSpace c.
Proof.
  unfold IsSpace, asciiSpace, RuneSelf. intros H.
  replace (byte c <=? 255) with true by (symmetry; apply Z.leb_le; lia).
  replace (byte c =? 133) with false by (symmetry; apply Z.eqb_neq; lia).
  replace (byte c =? 160) with false by (symmetry; apply Z.eqb_neq; lia).
  rewrite !orb_false_r. reflexivity.
Qed.

Lemma TrimLeftFunc_ascii (c : ascii) (l : list ascii) :
  byte c < RuneSelf ->
  TrimLeftFunc_IsSpace (c :: l) =
  if asciiSpace c then TrimLeftFunc_IsSpace l else c :: l.
Proof.
  intros Hc. unfold TrimLeftFunc_IsSpace.
  cbn [List.length TrimLeftFunc_loop].
  assert (E : DecodeRuneInString (c :: l) = (byte c, 1%nat)).
  { unfold DecodeRuneInString.
    replace (byte c <? RuneSelf) with true by (symmetry; apply Z.ltb_lt; lia).
    reflexivity. }
  rewrite E. cbn [fst snd skipn]. rewrite IsSpace_ascii by exact Hc.
  reflexivity.
Qed.

Lemma lowerByte_other (c : ascii) : RuneSelf <= byte c -> lowerByte c = c.
Proof.
  unfold lowerByte, RuneSelf. intros H.
  replace (byte c <=? 90) with false by (symmetry; apply Z.leb_gt; lia).
  rewrite andb_false_r. reflexivity.
Qed.

Lemma select_letters_ascii (a : ascii) :
  In a (list_ascii_of_string "select") -> byte a < RuneSelf.
Proof.
  simpl. intros H.
  repeat (destruct H as [<-|H]; [reflexivity|]). destruct H.
Qed.

(** A byte that a trim may cut off, an ASCII space or a byte of a longer
    encoding, is none of the letters of "select", lower-cased or not. *)
Lemma cut_byte_not_in_select (c : ascii) :
  asciiSpace c = true \/ RuneSelf <= byte c ->
  ~ In (lowerByte c) (list_ascii_of_string "select").
Proof.
  intros [Hc|Hc].
  - apply space_not_in_select. exact Hc.
  - rewrite lowerByte_other by exact Hc. intros Hin.
    apply select_letters_ascii in Hin. lia.
Qed.

Lemma TrimSpace_stop_go (U : Unicode) (r : list ascii) :
  goStrings U ->
  exists kept cut,
    TrimSpace_stop U r = string_of_list_ascii kept /\
    rev r = kept ++ cut /\
    Forall (fun c => asciiSpace c = true \/ RuneSelf <= byte c) cut.
Proof.
  intros HU. induction r as [|c r IH].
  - exists [], []. repeat split. constructor.
  - cbn [TrimSpace_stop]. destruct (Z.leb_spec RuneSelf (byte c)) as [Hc|Hc].
    + destruct (go_TrimRightFunc U HU (string_of_list_ascii (rev (c :: r))))
        as (cut & Ecut & Hcut).
      rewrite list_ascii_of_string_of_list_ascii in Ecut.
      eexists _, cut. split; [|split; [exact Ecut|exact Hcut]].
      symmetry. apply string_of_list_ascii_of_string.
    + destruct (asciiSpace c) eqn:Es.
      * destruct IH as (kept & cut & E1 & E2 & E3).
        exists kept, (cut ++ [c]). split; [exact E1|]. split.
        -- simpl. rewrite E2, app_assoc. reflexivity.
        -- apply Forall_app. split; [exact E3|]. constructor; [|constructor].
           left. exact Es.
      * exists (rev (c :: r)), []. split; [reflexivity|].
        split; [rewrite app_nil_r; reflexivity|constructor].
Qed.

(** [TrimSpace], with slow paths that follow Go: what it returns is the
    left-trimmed text less a tail of bytes that are ASCII spaces or bytes of
    longer encodings. *)
Lemma TrimSpace_start_go (U : Unicode) (l : list ascii) :
  goStrings U ->
  exists kept cut,
    TrimSpace_start U l = string_of_list_ascii kept /\
    TrimLeftFunc_IsSpace l = kept ++ cut /\
    Forall (fun c => asciiSpace c = true \/ RuneSelf <= byte c) cut.
Proof.
  intros HU. induction l as [|c l IH].
  - exists [], []. repeat split. constructor.
  - cbn [TrimSpace_start]. destruct (Z.leb_spec RuneSelf (byte c)) as [Hc|Hc].
    + rewrite (go_TrimFunc U HU).
      rewrite list_ascii_of_string_of_list_ascii.
      destruct (go_TrimRightFunc U HU
                  (string_of_list_ascii (TrimLeftFunc_IsSpace (c :: l))))
        as (cut & Ecut & Hcut).
      rewrite list_ascii_of_string_of_list_ascii in Ecut.
      eexists _, cut. split; [|split; [exact Ecut|exact Hcut]].
      symmetry. apply string_of_list_ascii_of_string.
    + rewrite TrimLeftFunc_ascii by exact Hc.
      destruct (asciiSpace c) eqn:Es; [exact IH|].
      destruct (TrimSpace_stop_go U (rev (c :: l)) HU) as (kept & cut & E1 & E2 & E3).
      rewrite rev_involutive in E2.
      exists kept, cut. split; [exact E1|]. split; [exact E2|exact E3].
Qed.

Lemma prefix_nil_r (p : string) :
  String.prefix p EmptyString = match p with EmptyString => true | _ => false end.
Proof. destruct p; reflexivity. Qed.

(** Under [goStrings], [Map(unicode.ToLower, s)] and the byte-wise lower
    case agree on whether the text starts with letters of "select". *)
Lemma prefix_Map_ToLower (U : Unicode) (x : list ascii) :
  goStrings U ->
  forall p,
    Forall (fun a => In a (list_ascii_of_string "select")) (list_ascii_of_string p) ->
    String.prefix p (Map_ToLower U (string_of_list_ascii x)) =
    String.prefix p (string_of_list_ascii (map lowerByte x)).
Proof.
  intros HU. induction x as [|c x IH]; intros p Hp.
  - simpl. rewrite (go_Map_empty U HU). reflexivity.
  - destruct p as [|a p].
    { cbn [string_of_list_ascii map].
      destruct (Map_ToLower U (String c (string_of_list_ascii x))); reflexivity. }
    simpl in Hp. inversion Hp as [|? ? Ha Hp']; subst.
    cbn [string_of_list_ascii map].
    destruct (Z.leb_spec RuneSelf (byte c)) as [Hc|Hc].
    + pose proof (go_Map_other U HU c (string_of_list_ascii x) Hc) as Hm.
      rewrite lowerByte_other by exact Hc.
      assert (Hne : a <> c).
      { intros ->. apply select_letters_ascii in Ha. lia. }
      destruct (Map_ToLower U (String c (string_of_list_ascii x))) as [|b rest].
      * simpl. destruct (ascii_dec a c); [contradiction|reflexivity].
      * simpl. destruct (ascii_dec a b) as [->|_]; [contradiction|].
        destruct (ascii_dec a c); [contradiction|reflexivity].
    + rewrite (go_Map_ascii U HU) by exact Hc. simpl.
      destruct (ascii_dec a (lowerByte c)); [|reflexivity].
      apply IH. exact Hp'.
Qed.

Lemma prefix_ToLower_go (U : Unicode) (kept : list ascii) :
  goStrings U ->
  String.prefix "select" (ToLower U (string_of_list_ascii kept)) =
  String.prefix "select" (string_of_list_ascii (map lowerByte kept)).
Proof.
  intros HU. unfold ToLower.
  destruct (isASCII (string_of_list_ascii kept)).
  - rewrite list_ascii_of_string_of_list_ascii. reflexivity.
  - apply prefix_Map_ToLower; [exact HU|].
    simpl. repeat (constructor; [simpl; auto 10|]). constructor.
Qed.

(** The classification of any text, with slow paths that follow Go. *)
Lemma classification_go (U : Unicode) (q : string) :
  goStrings U ->
  HasPrefix (ToLower U (TrimSpace U q)) "select" =
  beginsWithSelect (TrimLeftFunc_IsSpace (list_ascii_of_string q)).
Proof.
  intros HU. unfold HasPrefix, TrimSpace.
  destruct (TrimSpace_start_go U (list_ascii_of_string q) HU)
    as (kept & cut & E1 & E2 & E3).
  rewrite E1, E2, prefix_ToLower_go by exact HU.
  rewrite <- prefix_select_begins, map_app.
  symmetry. apply prefix_app_foreign.
  apply Forall_map. eapply Forall_impl; [|exact E3].
  intros c Hc. apply cut_byte_not_in_select. exact Hc.
Qed.

(** The classification of an ASCII text, whatever the slow paths. *)
Lemma classification_ascii (U : Unicode) (q : string) :
  isASCII q = true ->
  HasPrefix (ToLower U (TrimSpace U q)) "select" =
  beginsWithSelect (skipLeadingWhiteSpace (list_ascii_of_string q)).
Proof.
  intros Hq. apply isASCII_Forall in Hq.
  rewrite <- dropSpaces_skipLeadingWhiteSpace, <- prefix_select_begins.
  set (t := dropSpaces (list_ascii_of_string q)).
  assert (Ht : Forall (fun c => byte c < RuneSelf) t) by (apply dropSpaces_ascii, Hq).
  assert (Etrim : TrimSpace U q = string_of_list_ascii (rev (dropSpaces (rev t))))
    by (apply TrimSpace_start_ascii; exact Hq).
  destruct (dropSpaces_split (rev t)) as (sp & Esp & Hsp).
  set (t' := rev (dropSpaces (rev t))) in *.
  assert (Et : t = t' ++ rev sp).
  { unfold t'. rewrite <- rev_app_distr, <- Esp, rev_involutive. reflexivity. }
  assert (Ht' : Forall (fun c => byte c < RuneSelf) t').
  { rewrite Et in Ht. apply Forall_app in Ht. apply Ht. }
  unfold HasPrefix, ToLower. rewrite Etrim.
  replace (isASCII (string_of_list_ascii t')) with true.
  2:{ symmetry. apply isASCII_Forall.
      rewrite list_ascii_of_string_of_list_ascii. exact Ht'. }
  rewrite list_ascii_of_string_of_list_ascii.
  rewrite Et, map_app. symmetry. apply prefix_app_foreign.
  apply Forall_map. apply Forall_rev.
  eapply Forall_impl; [|exact Hsp].
  intros c Hc. apply space_not_in_select. exact Hc.
Qed.

Lemma bytewise_goStrings : goStrings bytewise.
Proof.
  constructor; simpl.
  - intros s. reflexivity.
  - intros s. exists []. rewrite app_nil_r. split; [reflexivity|constructor].
  - reflexivity.
  - intros c s Hc. reflexivity.
  - intros c s Hc. rewrite lowerByte_other by exact Hc.
    intros Hin. apply select_letters_ascii in Hin. lia.
Qed.

(** C6.  The route of [PrepareContext].  For every text the call is the
    read-path [prepare], the failover walk of C1 over the replicas, when
    [HasPrefix(ToLower(TrimSpace(query)), "select")] holds, and otherwise one
    [PrepareContext] on the master with the text as given and nothing else:
    no replica is asked and the counter is not touched.  That test is the
    one the specification words:
    - for a text of bytes below 128, whatever the Unicode slow paths of
      [strings] do, [TrimSpace] returns the text without the white space at
      its two ends, and the read path is taken exactly when the text, after
      its leading white space, begins with "select" in any mix of cases;
    - for any text, with slow paths that follow Go ([goStrings]), the read
      path is taken exactly when the text, after its leading Unicode white
      space, begins with "select" in any mix of ASCII cases. *)
Theorem PrepareContext_routing (U : Unicode) (db : DB) (log : list event)
    (q : string) :
  let onTheMaster :=
    (Val (h_prepare (master db) q), (db, log ++ [(Master, MPrepare q)])) in
  let text := list_ascii_of_string q in
  PrepareContext U q (db, log) =
    (if HasPrefix (ToLower U (TrimSpace U q)) "select"
     then prepare q (db, log) else onTheMaster) /\
  prepare q (db, log) = walk (MPrepare q) (fun h => h_prepare h q) (db, log) /\
  (isASCII q = true ->
   TrimSpace U q =
     string_of_list_ascii
       (rev (skipLeadingWhiteSpace (rev (skipLeadingWhiteSpace text)))) /\
   PrepareContext U q (db, log) =
     (if beginsWithSelect (skipLeadingWhiteSpace text)
      then prepare q (db, log) else onTheMaster)) /\
  (goStrings U ->
   PrepareContext U q (db, log) =
     (if beginsWithSelect (TrimLeftFunc_IsSpace text)
      then prepare q (db, log) else onTheMaster)).
Proof.
  intros onTheMaster text.
  assert (E : PrepareContext U q (db, log) =
              (if HasPrefix (ToLower U (TrimSpace U q)) "select"
               then prepare q (db, log) else onTheMaster)).
  { unfold PrepareContext.
    destruct (HasPrefix (ToLower U (TrimSpace U q)) "select"); reflexivity. }
  split; [exact E|]. split; [apply prepare_walk|]. split.
  - intros Hq. split.
    + unfold TrimSpace. rewrite TrimSpace_start_ascii
        by (apply isASCII_Forall; exact Hq).
      rewrite !dropSpaces_skipLeadingWhiteSpace. reflexivity.
    + rewrite E, classification_ascii by exact Hq. reflexivity.
  - intros HU. rewrite E, classification_go by exact HU. reflexivity.
Qed.

(** "Select 1" behind a no-break space is a read: the no-break space is
    white space for [TrimSpace]. *)
Lemma PrepareContext_routing_witness :
  PrepareContext bytewise nbspSelect (threeReplicas, []) =
    (if beginsWithSelect (TrimLeftFunc_IsSpace (list_ascii_of_string nbspSelect))
     then prepare nbspSelect (threeReplicas, [])
     else (Val (h_prepare (master threeReplicas) nbspSelect),
           (threeReplicas, [] ++ [(Master, MPrepare nbspSelect)]))).
Proof.
  exact (proj2 (proj2 (proj2
           (PrepareContext_routing bytewise threeReplicas [] nbspSelect)))
           bytewise_goStrings).
Defined.

(** Texts as a user writes them and where they go, with any slow paths that
    follow Go: white space and case do not matter, a no-break space in front
    does not either, and a read that starts with another keyword goes to the
    master. *)
Example PrepareContext_routes (U : Unicode) :
  goStrings U ->
  let st := (threeReplicas, []) in
  let master q := (Val (Success (mkStmt "master" q)),
                   (threeReplicas, [(Master, MPrepare q)])) in
  let replica q := (Val (Success (mkStmt "r2" q)),
                    (setCount threeReplicas 1, [(Replica 1, MPrepare q)])) in
  PrepareContext U "  SeLeCt * FROM t  " st = replica "  SeLeCt * FROM t  " /\
  PrepareContext U nbspSelect st = replica nbspSelect /\
  PrepareContext U "INSERT INTO t VALUES (1)" st = master "INSERT INTO t VALUES (1)" /\
  PrepareContext U "WITH x AS (SELECT 1) SELECT * FROM x" st
    = master "WITH x AS (SELECT 1) SELECT * FROM x" /\
  PrepareContext U "" st = master "".
Proof.
  intros HU st master replica.
  assert (H : forall q, PrepareContext U q st =
                        (if beginsWithSelect
                              (TrimLeftFunc_IsSpace (list_ascii_of_string q))
                         then prepare q st
                         else (Val (h_prepare (openDB "master") q),
                               (threeReplicas, [(Master, MPrepare q)])))).
  { intros q. unfold PrepareContext, st.
    rewrite classification_go by exact HU.
    destruct (beginsWithSelect _); reflexivity. }
  repeat split; rewrite H; reflexivity.
Qed.
